(** * Optimized SWU map and 3-isogeny for BLS12-381 G2

    A shallow embedding of [py_ecc/optimized_bls12_381/optimized_swu.py]:
    [optimized_swu_G2], [sqrt_division_FQ2], [positive_eta_roots] and
    [iso_map_G2].  The quadratic extension field [FQ2] and the module
    [constants] are imported by that file and are not part of it; they are
    taken here as an interface ([Optimized_Field]) and as a table of
    parameters ([Constants]). *)

From Stdlib Require Import ZArith NArith List Bool String Field Lia.
Import ListNotations.

(** ** The field interface consumed by the code

    [py_ecc.fields.optimized_bls12_381_FQ2] supplies [+], [-], [*], [/],
    unary minus, [**] with an integer exponent, [==], [FQ2.zero()],
    [FQ2.one()], the constructor [FQ2([c0, c1])] and the method [sgn0()].
    Equality of field elements is Leibniz equality on the carrier, and
    Python's [==] is the boolean test [FQ2_eqb]. *)

Class Optimized_Field (F : Type) : Type := {
  FQ2_zero : F;
  FQ2_one : F;
  FQ2_add : F -> F -> F;
  FQ2_mul : F -> F -> F;
  FQ2_sub : F -> F -> F;
  FQ2_neg : F -> F;
  FQ2_div : F -> F -> F;
  FQ2_inv : F -> F;
  FQ2_eqb : F -> F -> bool;
  sgn0 : F -> Z;
  FQ2 : Z -> Z -> F;
  FQ2_field :
    field_theory FQ2_zero FQ2_one FQ2_add FQ2_mul FQ2_sub FQ2_neg
                 FQ2_div FQ2_inv (@eq F);
  FQ2_eqb_eq : forall x y : F, FQ2_eqb x y = true <-> x = y
}.

Declare Scope FQ2_scope.
Delimit Scope FQ2_scope with FQ2.
Notation "x + y" := (FQ2_add x y) : FQ2_scope.
Notation "x * y" := (FQ2_mul x y) : FQ2_scope.
Notation "x - y" := (FQ2_sub x y) : FQ2_scope.
Notation "x / y" := (FQ2_div x y) : FQ2_scope.
Notation "- x" := (FQ2_neg x) : FQ2_scope.
Notation "x == y" := (FQ2_eqb x y) (at level 70, no associativity) : FQ2_scope.

(** Modelled from the spec: the integer-exponent power of the field type
    (the method [__pow__] of the absent field module), as repeated
    multiplication by binary exponentiation. *)
Definition FQ2_pow {F : Type} `{Optimized_Field F} (x : F) (n : N) : F :=
  pow_N FQ2_one FQ2_mul x n.

Arguments FQ2_pow : simpl never.

Notation "x ** n" := (FQ2_pow x n%N) (at level 30, right associativity) : FQ2_scope.

(** The names imported from [.constants]; their values are parameters.
    [SQRT_I] is imported by the file and never used. *)
Class Constants (F : Type) : Type := {
  ISO_3_A : F;
  ISO_3_B : F;
  ISO_3_Z : F;
  P_MINUS_9_DIV_16 : N;
  EV1 : Z;
  EV2 : Z;
  ISO_3_MAP_COEFFICIENTS : list (list F);
  POSITIVE_EIGTH_ROOTS_OF_UNITY : list F
}.

Definition Optimized_Point3D (F : Type) : Type := (F * F * F)%type.

(** ** Exceptions *)

Inductive exn : Type :=
| Exception (msg : string)
| IndexError (msg : string).

Inductive outcome (A : Type) : Type :=
| Returned (a : A)
| Raised (e : exn).

Arguments Returned {A} a.
Arguments Raised {A} e.

Definition bind {A B : Type} (c : outcome A) (k : A -> outcome B) : outcome B :=
  match c with
  | Returned a => k a
  | Raised e => Raised e
  end.

Notation "x <- c ;; k" := (bind c (fun x => k))
  (at level 61, c at next level, right associativity).
Notation "' pat <- c ;; k" := (bind c (fun x => match x with pat => k end))
  (at level 61, pat pattern, c at next level, right associativity).

(** A [for] loop whose body may raise. *)
Fixpoint for_each {S A : Type} (body : S -> A -> outcome S) (xs : list A) (s : S)
  : outcome S :=
  match xs with
  | [] => Returned s
  | x :: xs' => s' <- body s x ;; for_each body xs' s'
  end.

(** Python's [enumerate]. *)
Fixpoint enumerate_from {A : Type} (i : nat) (xs : list A) : list (nat * A) :=
  match xs with
  | [] => []
  | x :: xs' => (i, x) :: enumerate_from (S i) xs'
  end.

Definition enumerate {A : Type} (xs : list A) : list (nat * A) :=
  enumerate_from 0 xs.

(** Reading and assigning a list cell by index; out of range raises. *)
Definition list_get {A : Type} (xs : list A) (i : nat) : outcome A :=
  match nth_error xs i with
  | Some x => Returned x
  | None => Raised (IndexError "list index out of range")
  end.

Definition list_set {A : Type} (xs : list A) (i : nat) (x : A) : outcome (list A) :=
  if (i <? List.length xs)%nat
  then Returned (firstn i xs ++ x :: skipn (S i) xs)
  else Raised (IndexError "list assignment index out of range").

(** The slices [k[-1:]] and [k[:-1]]. *)
Definition slice_last {A : Type} (k : list A) : list A :=
  skipn (List.length k - 1) k.

Definition slice_but_last {A : Type} (k : list A) : list A :=
  removelast k.

Section Code.

Context {F : Type} {OF : Optimized_Field F} {K : Constants F}.
Local Open Scope FQ2_scope.

(** ** Square Root Division *)

(** The body of the loop over [roots]; the loop state is
    [(valid_root, result)]. *)
Definition sqrt_division_step (u v sqrt_candidate : F)
  (st : bool * F) (root : F) : bool * F :=
  let '(valid_root, result) := st in
  let temp1 := root * sqrt_candidate in
  let temp2 := temp1 ** 2 * v - u in
  if (temp2 == FQ2_zero) && negb valid_root
  then (true, temp1)
  else (valid_root, result).

Definition sqrt_division_FQ2 (u v : F) : bool * F :=
  let temp1 := u * v ** 7 in
  let temp2 := temp1 * v ** 8 in
  let sqrt_candidate := temp2 ** P_MINUS_9_DIV_16 in
  let sqrt_candidate := sqrt_candidate * temp1 in
  let valid_root := false in
  let result := sqrt_candidate in
  let roots := POSITIVE_EIGTH_ROOTS_OF_UNITY in
  fold_left (sqrt_division_step u v sqrt_candidate) roots (valid_root, result).

(** ** The four positive roots of eta *)

Definition positive_eta_roots : list F :=
  let roots := [] in
  let roots := roots ++ [FQ2 EV1 0] in
  let roots := roots ++ [FQ2 0 EV1] in
  let roots := roots ++ [FQ2 EV2 EV2] in
  let roots := roots ++ [FQ2 EV2 (- EV2)%Z] in
  roots.

(** ** Optimized SWU map *)

(** The body of the loop over [enumerate(etas)]; the loop state is
    [(y, success_2)]. *)
Definition eta_step (u v sqrt_candidate : F) (success : bool)
  (st : F * bool) (ie : nat * F) : outcome (F * bool) :=
  let '(y, success_2) := st in
  let '(i, eta) := ie in
  let temp1 := eta * sqrt_candidate in
  let temp1 := temp1 ** 2 * v - u in
  if (temp1 == FQ2_zero) && negb success && negb success_2
  then Returned (sqrt_candidate * eta, true)
  else if (i =? 3)%nat && negb success && negb success_2
  then Raised (Exception "Hash to Curve - Optimized SWU failure")
  else Returned (y, success_2).

Definition optimized_swu_G2 (t : F) : outcome (Optimized_Point3D F) :=
  let t2 := t ** 2 in
  let temp := ISO_3_Z * t2 in
  let temp := temp + temp ** 2 in
  let denominator := - (ISO_3_A * temp) in
  let temp := temp + FQ2_one in
  let numerator := ISO_3_B * temp in
  let denominator :=
    if denominator == FQ2_zero then ISO_3_Z * ISO_3_A else denominator in
  let v := denominator ** 3 in
  let u := numerator ** 3 + ISO_3_A * numerator * denominator ** 2 + ISO_3_B * v in
  let '(success, sqrt_candidate) := sqrt_division_FQ2 u v in
  let y := sqrt_candidate in
  let sqrt_candidate := sqrt_candidate * t ** 3 in
  let u := (ISO_3_Z * t2) ** 3 * u in
  let success_2 := false in
  let etas := positive_eta_roots in
  '(y, success_2) <- for_each (eta_step u v sqrt_candidate success)
                               (enumerate etas) (y, success_2) ;;
  let numerator := if negb success then numerator * t2 * ISO_3_Z else numerator in
  let y := if negb (sgn0 t =? sgn0 y)%Z then - y else y in
  let y := y * denominator in
  Returned (numerator, y, denominator).

(** ** Optimal map from the 3-isogenous curve to G2 *)

(** The body of the inner (Horner) loop; the loop state is [mapped_values]. *)
Definition horner_step (x : F) (z_powers : list F) (i : nat)
  (mapped_values : list F) (jk : nat * F) : outcome (list F) :=
  let '(j, k_i_j) := jk in
  m <- list_get mapped_values i ;;
  zp <- list_get z_powers j ;;
  list_set mapped_values i (m * x + zp * k_i_j).

(** The body of the outer loop over [enumerate(ISO_3_MAP_COEFFICIENTS)]. *)
Definition coefficients_step (x : F) (z_powers : list F)
  (mapped_values : list F) (ik : nat * list F) : outcome (list F) :=
  let '(i, k_i) := ik in
  top <- list_get (slice_last k_i) 0 ;;
  mapped_values <- list_set mapped_values i top ;;
  for_each (horner_step x z_powers i)
           (enumerate (rev (slice_but_last k_i))) mapped_values.

Definition iso_map_G2 (x y z : F) : outcome (Optimized_Point3D F) :=
  let mapped_values := [FQ2_zero; FQ2_zero; FQ2_zero; FQ2_zero] in
  let z_powers := [z; z ** 2; z ** 3] in
  mapped_values <- for_each (coefficients_step x z_powers)
                            (enumerate ISO_3_MAP_COEFFICIENTS) mapped_values ;;
  m2 <- list_get mapped_values 2 ;;
  mapped_values <- list_set mapped_values 2 (m2 * y) ;;
  m3 <- list_get mapped_values 3 ;;
  mapped_values <- list_set mapped_values 3 (m3 * z) ;;
  m1 <- list_get mapped_values 1 ;;
  m3 <- list_get mapped_values 3 ;;
  let z_G2 := m1 * m3 in
  m0 <- list_get mapped_values 0 ;;
  m3 <- list_get mapped_values 3 ;;
  let x_G2 := m0 * m3 in
  m1 <- list_get mapped_values 1 ;;
  m2 <- list_get mapped_values 2 ;;
  let y_G2 := m1 * m2 in
  Returned (x_G2, y_G2, z_G2).

(** ** Quantities named by the specification *)

(** The affine equation of the isogenous curve,
    [y^2 = x^3 + A x + B], at the point [(X/Z, Y/Z)]. *)
Definition on_isogenous_curve (P : Optimized_Point3D F) : Prop :=
  let '(X, Y, Z) := P in
  (Y / Z) ** 2 = (X / Z) ** 3 + ISO_3_A * (X / Z) + ISO_3_B.

(** [s = Z t^2 + Z^2 t^4] and the first value of [denominator]. *)
Definition swu_s (t : F) : F := ISO_3_Z * t ** 2 + (ISO_3_Z * t ** 2) ** 2.

Definition swu_denominator0 (t : F) : F := - (ISO_3_A * swu_s t).

(** The values of [denominator], [numerator], [v] and [u] at the call of
    the square root division. *)
Definition swu_denominator (t : F) : F :=
  if swu_denominator0 t == FQ2_zero then ISO_3_Z * ISO_3_A else swu_denominator0 t.

Definition swu_numerator (t : F) : F := ISO_3_B * (swu_s t + FQ2_one).

Definition swu_v (t : F) : F := swu_denominator t ** 3.

Definition swu_u (t : F) : F :=
  swu_numerator t ** 3
  + ISO_3_A * swu_numerator t * swu_denominator t ** 2
  + ISO_3_B * swu_v t.

(** The candidate [uv^7 * (uv^15)^((p - 9) / 16)] of the square root
    division, before any root of unity is applied. *)
Definition candidate0 (u v : F) : F :=
  (u * v ** 7 * v ** 8) ** P_MINUS_9_DIV_16 * (u * v ** 7).

(** The test applied to each root of unity. *)
Definition root_matches (u v c root : F) : bool :=
  (root * c) ** 2 * v - u == FQ2_zero.

(** The test applied to each eta. *)
Definition eta_matches (u1 v c1 eta : F) : bool :=
  (eta * c1) ** 2 * v - u1 == FQ2_zero.

(** The result of the call [sqrt_division_FQ2(u, v)] in the map, and the
    values of [sqrt_candidate] and [u] after they are rescaled for [x1]. *)
Definition swu_primary (t : F) : bool * F :=
  sqrt_division_FQ2 (swu_u t) (swu_v t).

Definition swu_candidate1 (t : F) : F := snd (swu_primary t) * t ** 3.

Definition swu_u1 (t : F) : F := (ISO_3_Z * t ** 2) ** 3 * swu_u t.

(** The sign canonicalization [if t.sgn0() != y.sgn0(): y = -y]. *)
Definition canonical_sign (t y : F) : F :=
  if negb (sgn0 t =? sgn0 y)%Z then - y else y.

(** ** Conditions on the absent constants and on [sgn0]

    [g(B / (Z A))] has a square root that the division finds: the choice
    of [Z] that makes the exceptional case land on the curve. *)
Definition exceptional_case_square : Prop :=
  let D := ISO_3_Z * ISO_3_A in
  fst (sqrt_division_FQ2
         (ISO_3_B ** 3 + ISO_3_A * ISO_3_B * D ** 2 + ISO_3_B * D ** 3)
         (D ** 3)) = true.

(** Three facts about the constants from which
    [exceptional_case_square] follows: the field has [16 e + 9] elements
    for [e = P_MINUS_9_DIV_16], so nonzero elements have order dividing
    [16 e + 8]; the table of roots of unity holds a square root of the
    inverse of each fourth root of unity; [g(B / (Z A))] is a square. *)
Definition field_size_16e_plus_9 : Prop :=
  forall x : F, x <> FQ2_zero -> x ** (16 * P_MINUS_9_DIV_16 + 8) = FQ2_one.

Definition roots_of_unity_table : Prop :=
  forall w : F, w ** 4 = FQ2_one ->
    exists root, In root POSITIVE_EIGTH_ROOTS_OF_UNITY /\ root ** 2 * w = FQ2_one.

Definition exceptional_x_square : Prop :=
  exists s : F,
    s ** 2 = (ISO_3_B / (ISO_3_Z * ISO_3_A)) ** 3
             + ISO_3_A * (ISO_3_B / (ISO_3_Z * ISO_3_A)) + ISO_3_B.

(** The isogenous curve has no point with [y = 0]. *)
Definition no_point_of_order_two : Prop :=
  forall x : F, x ** 3 + ISO_3_A * x + ISO_3_B <> FQ2_zero.

(** Among nonzero elements [sgn0] takes two values and negation swaps
    them. *)
Definition sgn0_canonical : Prop :=
  forall x y : F, x <> FQ2_zero -> y <> FQ2_zero ->
                  sgn0 x <> sgn0 y -> sgn0 (- y) = sgn0 x.

(** The homogenized polynomial [sum_j coeff_j * x^j * z^(d - j)] of a
    coefficient sequence in ascending degree, [d] its degree. *)
Fixpoint homogenized_sum (x z : F) (d j : nat) (k : list F) : F :=
  match k with
  | [] => FQ2_zero
  | c :: k' =>
      c * x ** (N.of_nat j) * z ** (N.of_nat (d - j)) + homogenized_sum x z d (S j) k'
  end.

Definition homogenized_poly (x z : F) (k : list F) : F :=
  homogenized_sum x z (List.length k - 1) 0 k.

(** The table holds four coefficient sequences (x-numerator,
    x-denominator, y-numerator, y-denominator), each of degree at most
    three, the most [z_powers] provides for. *)
Definition coefficient_table (k1 k2 k3 k4 : list F) : Prop :=
  ISO_3_MAP_COEFFICIENTS = [k1; k2; k3; k4] /\
  Forall (fun k => 1 <= List.length k <= 4)%nat [k1; k2; k3; k4].

(** ** Further conditions on the absent constants

    The right-hand side [g(x) = x^3 + A x + B] of the isogenous curve. *)
Definition isogenous_g (x : F) : F := x ** 3 + ISO_3_A * x + ISO_3_B.

(** The etas are the square roots of [Z^3 / w] for the primitive eighth
    roots of unity [w], as the comment over [positive_eta_roots] says. *)
Definition eta_table : Prop :=
  forall w : F, w ** 4 = - FQ2_one ->
    exists eta, In eta positive_eta_roots /\ eta ** 2 * w = ISO_3_Z ** 3.

(** [-1 / Z] is not a square. *)
Definition minus_one_over_Z_not_square : Prop :=
  forall x : F, ISO_3_Z * x ** 2 <> - FQ2_one.

(** Negation changes the sign of a nonzero element. *)
Definition sgn0_odd : Prop :=
  forall x : F, x <> FQ2_zero -> sgn0 (- x) <> sgn0 x.

(** The table fits the four cells of [mapped_values] and each sequence
    fits the three entries of [z_powers]. *)
Definition table_in_bounds : Prop :=
  (List.length ISO_3_MAP_COEFFICIENTS <= 4)%nat /\
  Forall (fun k => 1 <= List.length k <= 4)%nat ISO_3_MAP_COEFFICIENTS.

End Code.

(** ** A small field to run the code on

    The field with nine elements, [GF(3)[i] / (i^2 + 1)], as pairs
    [(c0, c1)] standing for [c0 + c1 i].  Its size is [9 = 9 mod 16], the
    shape of field the square root division is written for, with
    [(9 - 9) / 16 = 0]. *)
Module GF9.

Inductive F3 : Type := f0 | f1 | f2.

Definition add3 (a b : F3) : F3 :=
  match a, b with
  | f0, x | x, f0 => x
  | f1, f1 => f2
  | f1, f2 | f2, f1 => f0
  | f2, f2 => f1
  end.

Definition neg3 (a : F3) : F3 :=
  match a with f0 => f0 | f1 => f2 | f2 => f1 end.

Definition mul3 (a b : F3) : F3 :=
  match a, b with
  | f0, _ | _, f0 => f0
  | f1, x | x, f1 => x
  | f2, f2 => f1
  end.

Definition eqb3 (a b : F3) : bool :=
  match a, b with
  | f0, f0 | f1, f1 | f2, f2 => true
  | _, _ => false
  end.

Definition of_Z3 (n : Z) : F3 :=
  match (n mod 3)%Z with
  | 0%Z => f0
  | 1%Z => f1
  | _ => f2
  end.

Definition t : Type := (F3 * F3)%type.

Definition zero : t := (f0, f0).
Definition one : t := (f1, f0).

Definition add (x y : t) : t := (add3 (fst x) (fst y), add3 (snd x) (snd y)).
Definition neg (x : t) : t := (neg3 (fst x), neg3 (snd x)).
Definition sub (x y : t) : t := add x (neg y).

Definition mul (x y : t) : t :=
  (add3 (mul3 (fst x) (fst y)) (neg3 (mul3 (snd x) (snd y))),
   add3 (mul3 (fst x) (snd y)) (mul3 (snd x) (fst y))).

(** The inverse is the conjugate over the norm; the norm of a nonzero
    element is [1] or [2], its own inverse in [GF(3)]. *)
Definition inv (x : t) : t :=
  let n := add3 (mul3 (fst x) (fst x)) (mul3 (snd x) (snd x)) in
  (mul3 (fst x) n, mul3 (neg3 (snd x)) n).

Definition div (x y : t) : t := mul x (inv y).

Definition eqb (x y : t) : bool := eqb3 (fst x) (fst y) && eqb3 (snd x) (snd y).

(** The sign of the highest nonzero coefficient: [2 = -1] is negative. *)
Definition sign (x : t) : Z :=
  match snd x, fst x with
  | f2, _ => 1
  | f1, _ => 0
  | f0, f2 => 1
  | f0, _ => 0
  end.

Definition of_coeffs (c0 c1 : Z) : t := (of_Z3 c0, of_Z3 c1).

Definition elements : list t :=
  [(f0, f0); (f1, f0); (f2, f0); (f0, f1); (f1, f1); (f2, f1);
   (f0, f2); (f1, f2); (f2, f2)].

(** A table of constants over the nine-element field: the curve
    [y^2 = x^3 + i x + i], the non-square [Z = 1 - i], the exponent
    [(9 - 9) / 16], the roots of unity [1, i, 1 + i, 1 - i] and
    [EV1 = EV2 = 1]. *)
Definition constants : Constants t := {|
  ISO_3_A := (f0, f1);
  ISO_3_B := (f0, f1);
  ISO_3_Z := (f1, f2);
  P_MINUS_9_DIV_16 := 0;
  EV1 := 1;
  EV2 := 1;
  ISO_3_MAP_COEFFICIENTS :=
    [[(f1, f1); (f0, f2); (f2, f0); (f1, f0)];
     [(f0, f1); (f2, f2); (f1, f0)];
     [(f2, f1); (f1, f0); (f0, f1); (f1, f2)];
     [(f1, f2); (f2, f0); (f0, f2); (f1, f0)]];
  POSITIVE_EIGTH_ROOTS_OF_UNITY := [(f1, f0); (f0, f1); (f1, f1); (f1, f2)]
|}.

(** The same table with the eta constants zeroed, a corrupted table. *)
Definition corrupted_constants : Constants t := {|
  ISO_3_A := (f0, f1);
  ISO_3_B := (f0, f1);
  ISO_3_Z := (f1, f2);
  P_MINUS_9_DIV_16 := 0;
  EV1 := 0;
  EV2 := 0;
  ISO_3_MAP_COEFFICIENTS := [];
  POSITIVE_EIGTH_ROOTS_OF_UNITY := [(f1, f0); (f0, f1); (f1, f1); (f1, f2)]
|}.

End GF9.

(** The table of [GF9.constants] with the x-denominator padded by a zero
    coefficient, so that the four sequences have the same length. *)
Definition GF9_padded_constants : Constants GF9.t := {|
  ISO_3_A := (GF9.f0, GF9.f1);
  ISO_3_B := (GF9.f0, GF9.f1);
  ISO_3_Z := (GF9.f1, GF9.f2);
  P_MINUS_9_DIV_16 := 0;
  EV1 := 1;
  EV2 := 1;
  ISO_3_MAP_COEFFICIENTS :=
    [[(GF9.f1, GF9.f1); (GF9.f0, GF9.f2); (GF9.f2, GF9.f0); (GF9.f1, GF9.f0)];
     [(GF9.f0, GF9.f1); (GF9.f2, GF9.f2); (GF9.f1, GF9.f0); (GF9.f0, GF9.f0)];
     [(GF9.f2, GF9.f1); (GF9.f1, GF9.f0); (GF9.f0, GF9.f1); (GF9.f1, GF9.f2)];
     [(GF9.f1, GF9.f2); (GF9.f2, GF9.f0); (GF9.f0, GF9.f2); (GF9.f1, GF9.f0)]];
  POSITIVE_EIGTH_ROOTS_OF_UNITY :=
    [(GF9.f1, GF9.f0); (GF9.f0, GF9.f1); (GF9.f1, GF9.f1); (GF9.f1, GF9.f2)]
|}.

(** A table with a sequence of five coefficients, one more than
    [z_powers] provides for. *)
Definition GF9_long_sequence_constants : Constants GF9.t := {|
  ISO_3_A := (GF9.f0, GF9.f1);
  ISO_3_B := (GF9.f0, GF9.f1);
  ISO_3_Z := (GF9.f1, GF9.f2);
  P_MINUS_9_DIV_16 := 0;
  EV1 := 1;
  EV2 := 1;
  ISO_3_MAP_COEFFICIENTS :=
    [[(GF9.f1, GF9.f1); (GF9.f0, GF9.f2); (GF9.f2, GF9.f0); (GF9.f1, GF9.f0);
      (GF9.f1, GF9.f0)]];
  POSITIVE_EIGTH_ROOTS_OF_UNITY :=
    [(GF9.f1, GF9.f0); (GF9.f0, GF9.f1); (GF9.f1, GF9.f1); (GF9.f1, GF9.f2)]
|}.

(** * Properties *)

Section Theory.

Context {F : Type} {OF : Optimized_Field F} {K : Constants F}.
Local Open Scope FQ2_scope.

Add Field FQ2_field_tactics : FQ2_field.

Local Notation "0" := FQ2_zero : FQ2_scope.
Local Notation "1" := FQ2_one : FQ2_scope.

(** ** The field interface *)

Lemma FQ2_eqb_neq (x y : F) : (x == y) = false <-> x <> y.
Proof.
  split.
  - intros E H. apply FQ2_eqb_eq in H. congruence.
  - intros N. destruct (x == y) eqn:E; trivial.
    apply FQ2_eqb_eq in E. contradiction.
Qed.

Lemma FQ2_eq_dec (x y : F) : x = y \/ x <> y.
Proof.
  destruct (x == y) eqn:E.
  - left. now apply FQ2_eqb_eq.
  - right. now apply FQ2_eqb_neq.
Qed.

Lemma FQ2_pow_2 (x : F) : x ** 2 = x * x.
Proof. reflexivity. Qed.

Lemma FQ2_pow_3 (x : F) : x ** 3 = x * (x * x).
Proof. reflexivity. Qed.

Lemma FQ2_pow_4 (x : F) : x ** 4 = x * x * (x * x).
Proof. reflexivity. Qed.

Lemma FQ2_sub_zero (x y : F) : x - y = 0 <-> x = y.
Proof.
  split; intros H.
  - transitivity (x - y + y); [ring | rewrite H; ring].
  - subst. ring.
Qed.

Lemma FQ2_mul_nonzero (x y : F) : x <> 0 -> y <> 0 -> x * y <> 0.
Proof.
  intros Hx Hy H. apply Hy.
  transitivity (x * y / x); [field; assumption | rewrite H; field; assumption].
Qed.

Lemma FQ2_mul_zero (x y : F) : x * y = 0 -> x = 0 \/ y = 0.
Proof.
  intros H. destruct (FQ2_eq_dec x 0) as [Hx | Hx]; [now left | right].
  destruct (FQ2_eq_dec y 0) as [Hy | Hy]; trivial.
  exfalso. exact (FQ2_mul_nonzero x y Hx Hy H).
Qed.

Lemma FQ2_neg_nonzero (x : F) : x <> 0 -> - x <> 0.
Proof.
  intros Hx H. apply Hx. transitivity (- - x); [ring | rewrite H; ring].
Qed.

(** ** Square root division *)

Lemma sqrt_division_loop_found (u v c r : F) (roots : list F) :
  fold_left (sqrt_division_step u v c) roots (true, r) = (true, r).
Proof.
  induction roots as [| root roots IH]; simpl; trivial.
  rewrite andb_false_r. exact IH.
Qed.

Lemma sqrt_division_loop (u v c : F) (roots : list F) :
  fold_left (sqrt_division_step u v c) roots (false, c) =
  match find (root_matches u v c) roots with
  | Some root => (true, root * c)
  | None => (false, c)
  end.
Proof.
  induction roots as [| root roots IH]; simpl; trivial.
  unfold root_matches at 1.
  destruct ((root * c) ** 2 * v - u == 0); simpl.
  - apply sqrt_division_loop_found.
  - exact IH.
Qed.

Lemma sqrt_division_FQ2_find (u v : F) :
  sqrt_division_FQ2 u v =
  match find (root_matches u v (candidate0 u v)) POSITIVE_EIGTH_ROOTS_OF_UNITY with
  | Some root => (true, root * candidate0 u v)
  | None => (false, candidate0 u v)
  end.
Proof.
  unfold sqrt_division_FQ2. cbv zeta. apply sqrt_division_loop.
Qed.

Lemma find_first_match {A : Type} (f : A -> bool) (pre post : list A) (a : A) :
  (forall x, In x pre -> f x = false) -> f a = true ->
  find f (pre ++ a :: post) = Some a.
Proof.
  intros Hpre Ha. induction pre as [| p pre IH]; simpl.
  - now rewrite Ha.
  - rewrite (Hpre p (or_introl eq_refl)). apply IH.
    intros x Hx. apply Hpre. now right.
Qed.

Lemma find_no_match {A : Type} (f : A -> bool) (xs : list A) :
  (forall x, In x xs -> f x = false) -> find f xs = None.
Proof.
  intros H. induction xs as [| x xs IH]; simpl; trivial.
  rewrite (H x (or_introl eq_refl)). apply IH.
  intros y Hy. apply H. now right.
Qed.

Lemma sqrt_division_sound (u v r : F) :
  sqrt_division_FQ2 u v = (true, r) ->
  (exists root, In root POSITIVE_EIGTH_ROOTS_OF_UNITY /\
                r = root * candidate0 u v) /\
  r ** 2 * v - u = 0.
Proof.
  rewrite sqrt_division_FQ2_find.
  destruct (find _ _) as [root |] eqn:E; [| discriminate].
  intros H. injection H as <-.
  apply find_some in E. destruct E as [Hin Hm].
  split.
  - exists root. now split.
  - now apply FQ2_eqb_eq in Hm.
Qed.

(** C2: a result reported as found is a table root times the candidate and
    is a square root of [u / v]. *)
Theorem sqrt_division_FQ2_found_is_root (u v r : F) :
  v <> 0 ->
  sqrt_division_FQ2 u v = (true, r) ->
  (exists root, In root POSITIVE_EIGTH_ROOTS_OF_UNITY /\
                r = root * candidate0 u v) /\
  r ** 2 * v - u = 0 /\
  r ** 2 = u / v.
Proof.
  intros Hv H. apply sqrt_division_sound in H. destruct H as [Hroot Hz].
  split; [exact Hroot | split; [exact Hz |]].
  apply -> FQ2_sub_zero in Hz.
  transitivity (r ** 2 * v / v); [field; assumption | now rewrite Hz].
Qed.

(** C3: the candidate is [(u v^7 * v^8)^e * (u v^7)]; without a matching
    root the result is [(false, candidate0)]; with one, the first matching
    root in table order decides the result, whatever follows it. *)
Theorem sqrt_division_FQ2_first_match (u v : F) :
  candidate0 u v = (u * v ** 7 * v ** 8) ** P_MINUS_9_DIV_16 * (u * v ** 7) /\
  ((forall root, In root POSITIVE_EIGTH_ROOTS_OF_UNITY ->
                 (root * candidate0 u v) ** 2 * v - u <> 0) ->
   sqrt_division_FQ2 u v = (false, candidate0 u v)) /\
  (forall pre root post,
     POSITIVE_EIGTH_ROOTS_OF_UNITY = pre ++ root :: post ->
     (forall r, In r pre -> (r * candidate0 u v) ** 2 * v - u <> 0) ->
     (root * candidate0 u v) ** 2 * v - u = 0 ->
     sqrt_division_FQ2 u v = (true, root * candidate0 u v)).
Proof.
  split; [reflexivity | split].
  - intros H. rewrite sqrt_division_FQ2_find, find_no_match; trivial.
    intros x Hx. apply FQ2_eqb_neq. now apply H.
  - intros pre root post E Hpre Hroot.
    rewrite sqrt_division_FQ2_find, E.
    rewrite (find_first_match _ pre post root); trivial.
    + intros x Hx. apply FQ2_eqb_neq. now apply Hpre.
    + now apply FQ2_eqb_eq.
Qed.

(** ** Powers *)

Lemma pow_pos_succ (x : F) (p : positive) :
  pow_pos FQ2_mul x (Pos.succ p) = x * pow_pos FQ2_mul x p.
Proof.
  induction p as [p IH | p IH |]; simpl.
  - rewrite IH. ring.
  - reflexivity.
  - reflexivity.
Qed.

Lemma FQ2_pow_succ (x : F) (n : N) : x ** (N.succ n) = x * x ** n.
Proof.
  unfold FQ2_pow. destruct n as [| p]; simpl.
  - ring.
  - apply pow_pos_succ.
Qed.

Lemma FQ2_pow_0 (x : F) : x ** 0 = 1.
Proof. reflexivity. Qed.

Lemma FQ2_pow_add (x : F) (n m : N) : x ** (n + m) = x ** n * x ** m.
Proof.
  induction n as [| n IH] using N.peano_ind.
  - rewrite N.add_0_l, FQ2_pow_0. ring.
  - rewrite N.add_succ_l, !FQ2_pow_succ, IH. ring.
Qed.

Lemma FQ2_pow_mul (x : F) (n m : N) : x ** (n * m) = (x ** n) ** m.
Proof.
  induction m as [| m IH] using N.peano_ind.
  - now rewrite N.mul_0_r, !FQ2_pow_0.
  - rewrite N.mul_succ_r, FQ2_pow_add, FQ2_pow_succ, IH. ring.
Qed.

(** ** Why the square root division finds a root

    For [u / v = s^2] let [b = s v^8].  Then [u v^15 = b^2], the candidate
    [c] satisfies [c^2 v = b^(4 e + 2) u], and [b^(4 e + 2)] is a fourth
    root of unity, which a root of the table cancels. *)

Lemma find_some_true {A : Type} (f : A -> bool) (xs : list A) (a : A) :
  In a xs -> f a = true -> exists b, find f xs = Some b.
Proof.
  intros Hin Ha. destruct (find f xs) as [b |] eqn:E.
  - now exists b.
  - rewrite (find_none _ _ E a Hin) in Ha. discriminate.
Qed.

Lemma sqrt_division_complete (u v s : F) :
  field_size_16e_plus_9 -> roots_of_unity_table ->
  v <> 0 -> s ** 2 = u / v ->
  fst (sqrt_division_FQ2 u v) = true.
Proof.
  intros Hsize Htable Hv Hs.
  assert (Hu : u = s * s * v).
  { rewrite FQ2_pow_2 in Hs. rewrite Hs. field. assumption. }
  assert (Hroot : exists root, In root POSITIVE_EIGTH_ROOTS_OF_UNITY /\
                               root_matches u v (candidate0 u v) root = true).
  { unfold root_matches.
    destruct (FQ2_eq_dec s 0) as [Hs0 | Hs0].
    - destruct (Htable 1) as (root & Hin & _).
      { rewrite FQ2_pow_4. ring. }
      exists root. split; trivial. apply FQ2_eqb_eq.
      unfold candidate0. rewrite Hu, Hs0, FQ2_pow_2. ring.
    - set (b := s * v ** 8).
      assert (Hb : b <> 0).
      { unfold b. apply FQ2_mul_nonzero; trivial.
        unfold FQ2_pow. simpl. repeat apply FQ2_mul_nonzero; trivial. }
      assert (Huv : u * v ** 7 * v ** 8 = b ** 2).
      { unfold b. rewrite Hu. unfold FQ2_pow. simpl. ring. }
      destruct (Htable (b ** (4 * P_MINUS_9_DIV_16 + 2))) as (root & Hin & Hcancel).
      { rewrite <- FQ2_pow_mul.
        replace ((4 * P_MINUS_9_DIV_16 + 2) * 4)%N
          with (16 * P_MINUS_9_DIV_16 + 8)%N by lia.
        now apply Hsize. }
      exists root. split; trivial. apply FQ2_eqb_eq. apply FQ2_sub_zero.
      unfold candidate0. rewrite Huv.
      transitivity (root ** 2 * b ** (4 * P_MINUS_9_DIV_16 + 2) * u).
      + replace (4 * P_MINUS_9_DIV_16 + 2)%N
          with (2 * P_MINUS_9_DIV_16 + 2 * P_MINUS_9_DIV_16 + 2)%N by lia.
        rewrite !FQ2_pow_add, !FQ2_pow_mul, <- Huv, !FQ2_pow_2.
        assert (H8 : v ** 8 = v ** 7 * v) by (unfold FQ2_pow; simpl; ring).
        rewrite H8. ring.
      + rewrite Hcancel. ring. }
  destruct Hroot as (root & Hin & Hm).
  rewrite sqrt_division_FQ2_find.
  destruct (find_some_true _ _ root Hin Hm) as [b ->]. reflexivity.
Qed.

Lemma exceptional_case_square_of_constants :
  field_size_16e_plus_9 -> roots_of_unity_table ->
  ISO_3_Z * ISO_3_A <> 0 -> exceptional_x_square ->
  exceptional_case_square.
Proof.
  intros Hsize Htable HD [s Hs]. unfold exceptional_case_square. cbv zeta.
  assert (HZ : ISO_3_Z <> 0).
  { intros H. apply HD. rewrite H. ring. }
  assert (HA : ISO_3_A <> 0).
  { intros H. apply HD. rewrite H. ring. }
  apply sqrt_division_complete with (s := s); trivial.
  - rewrite FQ2_pow_3.
    apply FQ2_mul_nonzero; [| apply FQ2_mul_nonzero]; exact HD.
  - rewrite Hs, !FQ2_pow_2, !FQ2_pow_3. field. split; assumption.
Qed.

(** ** The SWU map: control flow *)

Lemma eta_loop (u1 v c1 y : F) (success : bool) :
  for_each (eta_step u1 v c1 success) (enumerate positive_eta_roots) (y, false) =
  if success then Returned (y, false)
  else match find (eta_matches u1 v c1) positive_eta_roots with
       | Some eta => Returned (c1 * eta, true)
       | None => Raised (Exception "Hash to Curve - Optimized SWU failure")
       end.
Proof.
  unfold positive_eta_roots, enumerate, eta_matches. simpl.
  destruct success; simpl;
    repeat match goal with
           | |- context [FQ2_eqb ?a ?b] => destruct (FQ2_eqb a b); simpl
           end; reflexivity.
Qed.

Lemma optimized_swu_G2_cases (t : F) :
  optimized_swu_G2 t =
  if fst (swu_primary t)
  then Returned (swu_numerator t,
                 canonical_sign t (snd (swu_primary t)) * swu_denominator t,
                 swu_denominator t)
  else match find (eta_matches (swu_u1 t) (swu_v t) (swu_candidate1 t))
                  positive_eta_roots with
       | Some eta =>
           Returned (swu_numerator t * t ** 2 * ISO_3_Z,
                     canonical_sign t (swu_candidate1 t * eta) * swu_denominator t,
                     swu_denominator t)
       | None => Raised (Exception "Hash to Curve - Optimized SWU failure")
       end.
Proof.
  unfold optimized_swu_G2, swu_u1, swu_candidate1, swu_primary, swu_u, swu_v,
    swu_numerator, swu_denominator, swu_denominator0, swu_s, canonical_sign.
  cbv zeta.
  destruct (sqrt_division_FQ2 _ _) as [success y0].
  rewrite eta_loop. cbn [fst snd].
  destruct success; cbn [bind negb]; trivial.
  destruct (find _ _); reflexivity.
Qed.

Lemma swu_returned_denominator (t X Y Zo : F) :
  optimized_swu_G2 t = Returned (X, Y, Zo) -> Zo = swu_denominator t.
Proof.
  rewrite optimized_swu_G2_cases.
  destruct (fst (swu_primary t)); [| destruct (find _ _)]; congruence.
Qed.

Lemma swu_denominator_nonzero (t : F) :
  ISO_3_A <> 0 -> ISO_3_Z <> 0 -> swu_denominator t <> 0.
Proof.
  intros HA HZ. unfold swu_denominator.
  destruct (swu_denominator0 t == 0) eqn:E.
  - now apply FQ2_mul_nonzero.
  - now apply FQ2_eqb_neq.
Qed.

(** In the exceptional case with [Z A <> 0] the inputs of the square root
    division are the constants of [exceptional_case_square]. *)
Lemma swu_exceptional (t : F) :
  (swu_denominator0 t == 0) = true -> ISO_3_Z * ISO_3_A <> 0 ->
  swu_denominator t = ISO_3_Z * ISO_3_A /\ swu_numerator t = ISO_3_B.
Proof.
  intros E HD. unfold swu_denominator, swu_numerator. rewrite E.
  split; trivial.
  apply FQ2_eqb_eq in E. unfold swu_denominator0 in E.
  assert (Hs : swu_s t = 0).
  { destruct (FQ2_mul_zero ISO_3_A (swu_s t)) as [HA | Hs]; trivial.
    - transitivity (- - (ISO_3_A * swu_s t)); [ring | rewrite E; ring].
    - exfalso. apply HD. rewrite HA. ring. }
  rewrite Hs. ring.
Qed.

Lemma swu_exceptional_primary (t : F) :
  exceptional_case_square ->
  (swu_denominator0 t == 0) = true -> ISO_3_Z * ISO_3_A <> 0 ->
  fst (swu_primary t) = true.
Proof.
  intros Hexc E HD. destruct (swu_exceptional t E HD) as [HDen HNum].
  unfold swu_primary, swu_u, swu_v. rewrite HDen, HNum. exact Hexc.
Qed.

(** ** The SWU map: algebra *)

Lemma canonical_sign_square (t y : F) :
  canonical_sign t y * canonical_sign t y = y * y.
Proof.
  unfold canonical_sign. destruct (negb _); ring.
Qed.

Lemma on_isogenous_curve_scaled (X y y' D : F) :
  D <> 0 ->
  y ** 2 * D ** 3 - (X ** 3 + ISO_3_A * X * D ** 2 + ISO_3_B * D ** 3) = 0 ->
  y' * y' = y * y ->
  on_isogenous_curve (X, y' * D, D).
Proof.
  intros HD H Hy. apply -> FQ2_sub_zero in H.
  unfold on_isogenous_curve. rewrite !FQ2_pow_2, !FQ2_pow_3 in *.
  transitivity (y * y * (D * (D * D)) / (D * (D * D))).
  - rewrite <- Hy. field. assumption.
  - rewrite H. field. assumption.
Qed.

(** [g(x1) v = (Z t^2)^3 g(x0) v] for [x0 = N / D], [x1 = Z t^2 x0] away
    from the exceptional case. *)
Lemma swu_second_candidate (t : F) :
  (swu_denominator0 t == 0) = false ->
  swu_u1 t =
  (swu_numerator t * t ** 2 * ISO_3_Z) ** 3
  + ISO_3_A * (swu_numerator t * t ** 2 * ISO_3_Z) * swu_denominator t ** 2
  + ISO_3_B * swu_denominator t ** 3.
Proof.
  intros E. unfold swu_u1, swu_u, swu_v, swu_denominator. rewrite E.
  unfold swu_numerator, swu_denominator0, swu_s.
  rewrite !FQ2_pow_2, !FQ2_pow_3. ring.
Qed.

Lemma swu_primary_square (t : F) :
  fst (swu_primary t) = true ->
  snd (swu_primary t) ** 2 * swu_v t - swu_u t = 0.
Proof.
  intros Hs. unfold swu_primary in *.
  destruct (sqrt_division_FQ2 (swu_u t) (swu_v t)) as [b r] eqn:E.
  simpl in Hs. subst b. now apply sqrt_division_sound in E.
Qed.

Lemma swu_eta_square (t eta : F) :
  find (eta_matches (swu_u1 t) (swu_v t) (swu_candidate1 t)) positive_eta_roots
    = Some eta ->
  In eta positive_eta_roots /\
  (swu_candidate1 t * eta) ** 2 * swu_v t - swu_u1 t = 0.
Proof.
  intros H. apply find_some in H. destruct H as [Hin H].
  split; trivial. apply FQ2_eqb_eq in H. rewrite <- H.
  rewrite !FQ2_pow_2. ring.
Qed.

Lemma optimized_swu_G2_returns_on_curve (t X Y Zo : F) :
  (swu_denominator0 t = 0 -> exceptional_case_square) ->
  optimized_swu_G2 t = Returned (X, Y, Zo) ->
  Zo <> 0 ->
  on_isogenous_curve (X, Y, Zo).
Proof.
  intros Hexc Hret HZo.
  rewrite optimized_swu_G2_cases in Hret.
  destruct (fst (swu_primary t)) eqn:Hs.
  - injection Hret as <- <- <-.
    apply on_isogenous_curve_scaled with (y := snd (swu_primary t)).
    + exact HZo.
    + exact (swu_primary_square t Hs).
    + apply canonical_sign_square.
  - destruct (find _ _) as [eta |] eqn:Hf; [| discriminate].
    injection Hret as <- <- <-.
    destruct (swu_eta_square _ _ Hf) as [_ Heta].
    destruct (swu_denominator0 t == 0) eqn:E.
    + assert (HZA : ISO_3_Z * ISO_3_A <> 0).
      { unfold swu_denominator in HZo. now rewrite E in HZo. }
      apply FQ2_eqb_eq in E.
      rewrite (swu_exceptional_primary t (Hexc E) (proj2 (FQ2_eqb_eq _ _) E) HZA)
        in Hs.
      discriminate.
    + apply on_isogenous_curve_scaled with (y := swu_candidate1 t * eta).
      * exact HZo.
      * rewrite <- (swu_second_candidate t E). exact Heta.
      * apply canonical_sign_square.
Qed.

Lemma swu_denominator0_expanded (t : F) :
  - (ISO_3_A * (ISO_3_Z * t ** 2 + ISO_3_Z ** 2 * t ** 4)) = swu_denominator0 t.
Proof.
  unfold swu_denominator0, swu_s. rewrite !FQ2_pow_2, FQ2_pow_4. ring.
Qed.

(** C1: a returned triple with [Z <> 0] is a point of
    [y^2 = x^3 + A x + B] in affine terms.  The constants matter only
    when [t] falls in the exceptional case, where [Z] has to make
    [g(B / (Z A))] a square. *)
Theorem optimized_swu_G2_on_curve (t X Y Zo : F) :
  (- (ISO_3_A * (ISO_3_Z * t ** 2 + ISO_3_Z ** 2 * t ** 4)) = 0 ->
   exceptional_case_square) ->
  optimized_swu_G2 t = Returned (X, Y, Zo) ->
  Zo <> 0 ->
  (Y / Zo) ** 2 = (X / Zo) ** 3 + ISO_3_A * (X / Zo) + ISO_3_B.
Proof.
  intros Hexc Hret HZo. rewrite swu_denominator0_expanded in Hexc.
  exact (optimized_swu_G2_returns_on_curve t X Y Zo Hexc Hret HZo).
Qed.

(** C4: when [-(A (Z t^2 + Z^2 t^4))] is zero the denominator becomes
    [Z A], the map returns and the result is on the curve; otherwise the
    denominator stays [-(A (Z t^2 + Z^2 t^4))]. *)
Theorem optimized_swu_G2_exceptional_denominator (t : F) :
  let d := - (ISO_3_A * (ISO_3_Z * t ** 2 + ISO_3_Z ** 2 * t ** 4)) in
  (d = 0 ->
   forall X Y Zo, optimized_swu_G2 t = Returned (X, Y, Zo) ->
                  Zo = ISO_3_Z * ISO_3_A) /\
  (d <> 0 ->
   forall X Y Zo, optimized_swu_G2 t = Returned (X, Y, Zo) -> Zo = d) /\
  (ISO_3_A <> 0 -> ISO_3_Z <> 0 -> exceptional_case_square ->
   d = 0 ->
   exists X Y, optimized_swu_G2 t = Returned (X, Y, ISO_3_Z * ISO_3_A) /\
               (Y / (ISO_3_Z * ISO_3_A)) ** 2 =
               (X / (ISO_3_Z * ISO_3_A)) ** 3
               + ISO_3_A * (X / (ISO_3_Z * ISO_3_A)) + ISO_3_B).
Proof.
  intros d. unfold d. rewrite swu_denominator0_expanded.
  split; [| split].
  - intros Hd X Y Zo Hret.
    rewrite (swu_returned_denominator _ _ _ _ Hret). unfold swu_denominator.
    apply FQ2_eqb_eq in Hd. now rewrite Hd.
  - intros Hd X Y Zo Hret.
    rewrite (swu_returned_denominator _ _ _ _ Hret). unfold swu_denominator.
    apply FQ2_eqb_neq in Hd. now rewrite Hd.
  - intros HA HZ Hexc Hd. apply FQ2_eqb_eq in Hd.
    assert (HZA : ISO_3_Z * ISO_3_A <> 0) by now apply FQ2_mul_nonzero.
    pose proof (swu_exceptional_primary t Hexc Hd HZA) as Hs.
    destruct (swu_exceptional t Hd HZA) as [HDen HNum].
    assert (Hret : optimized_swu_G2 t =
                   Returned (swu_numerator t,
                             canonical_sign t (snd (swu_primary t))
                             * (ISO_3_Z * ISO_3_A),
                             ISO_3_Z * ISO_3_A)).
    { now rewrite optimized_swu_G2_cases, Hs, HDen. }
    eexists. eexists. split; [exact Hret |].
    exact (optimized_swu_G2_returns_on_curve _ _ _ _ (fun _ => Hexc) Hret HZA).
Qed.

(** C5: the map raises exactly when the primary square root division
    fails and no eta passes its test; otherwise it returns a triple. *)
Theorem optimized_swu_G2_raises_iff (t : F) :
  let u := swu_u t in
  let v := swu_v t in
  let y0 := snd (sqrt_division_FQ2 u v) in
  let failure :=
    fst (sqrt_division_FQ2 u v) = false /\
    forall eta, In eta positive_eta_roots ->
                (eta * (y0 * t ** 3)) ** 2 * v - (ISO_3_Z * t ** 2) ** 3 * u <> 0 in
  ((exists e, optimized_swu_G2 t = Raised e) <-> failure) /\
  (optimized_swu_G2 t = Raised (Exception "Hash to Curve - Optimized SWU failure")
   \/ exists P, optimized_swu_G2 t = Returned P).
Proof.
  cbv zeta. rewrite optimized_swu_G2_cases.
  fold (swu_primary t). fold (swu_candidate1 t). fold (swu_u1 t).
  destruct (fst (swu_primary t)) eqn:Hs.
  - split; [split |].
    + intros [e He]. discriminate.
    + intros [Hf _]. discriminate.
    + right. eexists. reflexivity.
  - destruct (find _ _) as [eta |] eqn:Hf.
    + split; [split |].
      * intros [e He]. discriminate.
      * intros [_ Hno]. apply find_some in Hf. destruct Hf as [Hin Hm].
        apply FQ2_eqb_eq in Hm. elim (Hno eta Hin Hm).
      * right. eexists. reflexivity.
    + split; [split |].
      * intros _. split; trivial. intros eta Hin.
        apply FQ2_eqb_neq. exact (find_none _ _ Hf eta Hin).
      * intros _. eexists. reflexivity.
      * now left.
Qed.

(** ** The SWU map: sign and denominator *)

Lemma swu_u_nonzero (t : F) :
  no_point_of_order_two -> swu_denominator t <> 0 -> swu_u t <> 0.
Proof.
  intros Hg HD Hu.
  apply (Hg (swu_numerator t / swu_denominator t)).
  transitivity (swu_u t / swu_denominator t ** 3).
  - unfold swu_u, swu_v. rewrite !FQ2_pow_2, !FQ2_pow_3. field. assumption.
  - rewrite Hu, FQ2_pow_3. field. assumption.
Qed.

Lemma square_times_nonzero (y v u : F) :
  y ** 2 * v - u = 0 -> u <> 0 -> y <> 0.
Proof.
  intros H Hu Hy. apply Hu. apply -> FQ2_sub_zero in H.
  rewrite <- H, Hy, FQ2_pow_2. ring.
Qed.

Lemma sgn0_canonical_sign (t y : F) :
  sgn0_canonical -> t <> 0 -> y <> 0 -> sgn0 (canonical_sign t y) = sgn0 t.
Proof.
  intros Hsgn Ht Hy. unfold canonical_sign.
  destruct (Z.eqb_spec (sgn0 t) (sgn0 y)) as [E | E]; simpl.
  - now symmetry.
  - now apply Hsgn.
Qed.

(** C6: for nonzero [t] the sign of the affine y-coordinate of a returned
    triple is the sign of [t]. *)
Theorem optimized_swu_G2_sign (t X Y Zo : F) :
  ISO_3_A <> 0 -> ISO_3_Z <> 0 -> no_point_of_order_two -> sgn0_canonical ->
  t <> 0 ->
  optimized_swu_G2 t = Returned (X, Y, Zo) ->
  sgn0 t = sgn0 (Y / Zo).
Proof.
  intros HA HZ Hg Hsgn Ht Hret.
  pose proof (swu_denominator_nonzero t HA HZ) as HD.
  pose proof (swu_u_nonzero t Hg HD) as Hu.
  rewrite optimized_swu_G2_cases in Hret.
  assert (Hscale : forall y, canonical_sign t y * swu_denominator t / swu_denominator t
                             = canonical_sign t y) by (intros; field; assumption).
  destruct (fst (swu_primary t)) eqn:Hs.
  - injection Hret as <- <- <-. rewrite Hscale. symmetry.
    apply sgn0_canonical_sign; trivial.
    exact (square_times_nonzero _ _ _ (swu_primary_square t Hs) Hu).
  - destruct (find _ _) as [eta |] eqn:Hf; [| discriminate].
    injection Hret as <- <- <-. rewrite Hscale. symmetry.
    apply sgn0_canonical_sign; trivial.
    destruct (swu_eta_square _ _ Hf) as [_ Heta].
    apply (square_times_nonzero _ _ _ Heta).
    unfold swu_u1. rewrite FQ2_pow_3, FQ2_pow_2.
    repeat apply FQ2_mul_nonzero; trivial.
Qed.

(** C9: the third component of a returned triple is nonzero; it is
    [-(A s)] with [s <> 0] or the constant [Z A]. *)
Theorem optimized_swu_G2_denominator_nonzero (t X Y Zo : F) :
  ISO_3_A <> 0 -> ISO_3_Z <> 0 ->
  optimized_swu_G2 t = Returned (X, Y, Zo) ->
  Zo <> 0 /\
  ((Zo = - (ISO_3_A * swu_s t) /\ swu_s t <> 0) \/
   (Zo = ISO_3_Z * ISO_3_A /\ ISO_3_Z * ISO_3_A <> 0)).
Proof.
  intros HA HZ Hret.
  rewrite (swu_returned_denominator _ _ _ _ Hret).
  split; [now apply swu_denominator_nonzero |].
  unfold swu_denominator, swu_denominator0.
  destruct (- (ISO_3_A * swu_s t) == 0) eqn:E.
  - right. split; trivial. now apply FQ2_mul_nonzero.
  - left. split; trivial. apply FQ2_eqb_neq in E.
    intros Hs. apply E. rewrite Hs. ring.
Qed.

(** ** The SWU map at zero *)

Lemma swu_zero_returns :
  exists P, optimized_swu_G2 0 = Returned P.
Proof.
  rewrite optimized_swu_G2_cases.
  destruct (fst (swu_primary 0)); [eexists; reflexivity |].
  assert (Hfirst : eta_matches (swu_u1 0) (swu_v 0) (swu_candidate1 0) (FQ2 EV1 0) = true).
  { apply FQ2_eqb_eq. unfold swu_u1, swu_candidate1.
    rewrite !FQ2_pow_2, !FQ2_pow_3. ring. }
  unfold positive_eta_roots. simpl. rewrite Hfirst.
  eexists. reflexivity.
Qed.

(** C8: at the additive identity the map returns, it does not raise, and
    what it returns is on the curve. *)
Theorem optimized_swu_G2_zero :
  (exists P, optimized_swu_G2 0 = Returned P) /\
  (forall e, optimized_swu_G2 0 <> Raised e) /\
  (ISO_3_A <> 0 -> ISO_3_Z <> 0 -> exceptional_case_square ->
   forall X Y Zo,
     optimized_swu_G2 0 = Returned (X, Y, Zo) ->
     Zo <> 0 /\
     (Y / Zo) ** 2 = (X / Zo) ** 3 + ISO_3_A * (X / Zo) + ISO_3_B).
Proof.
  destruct swu_zero_returns as [P HP].
  split; [now exists P | split].
  - intros e He. congruence.
  - intros HA HZ Hexc X Y Zo Hret.
    assert (HZo : Zo <> 0).
    { rewrite (swu_returned_denominator _ _ _ _ Hret).
      now apply swu_denominator_nonzero. }
    split; trivial.
    exact (optimized_swu_G2_returns_on_curve _ _ _ _ (fun _ => Hexc) Hret HZo).
Qed.

(** ** The isogeny evaluator *)

Ltac same_cells :=
  apply f_equal;
  repeat (apply (f_equal2 cons); [try reflexivity |]);
  try reflexivity.

Lemma coefficients_step_horner (x z m0 m1 m2 m3 : F) (i : nat) (k : list F) :
  (i < 4)%nat -> (1 <= List.length k <= 4)%nat ->
  coefficients_step x [z; z ** 2; z ** 3] [m0; m1; m2; m3] (i, k) =
  Returned (firstn i [m0; m1; m2; m3]
            ++ homogenized_poly x z k :: skipn (S i) [m0; m1; m2; m3]).
Proof.
  intros Hi Hk.
  destruct k as [| c0 [| c1 [| c2 [| c3 [| c4 k]]]]]; simpl in Hk; try lia;
    destruct i as [| [| [| [| i]]]]; try lia;
    unfold coefficients_step, homogenized_poly; simpl;
    same_cells; unfold FQ2_pow; simpl; ring.
Qed.

Lemma iso_map_G2_value (x y z : F) (k1 k2 k3 k4 : list F) :
  coefficient_table k1 k2 k3 k4 ->
  iso_map_G2 x y z =
  Returned (homogenized_poly x z k1 * (homogenized_poly x z k4 * z),
            homogenized_poly x z k2 * (homogenized_poly x z k3 * y),
            homogenized_poly x z k2 * (homogenized_poly x z k4 * z)).
Proof.
  intros [Htable Hlen].
  inversion_clear Hlen as [| ? ? H1 Hlen'].
  inversion_clear Hlen' as [| ? ? H2 Hlen].
  inversion_clear Hlen as [| ? ? H3 Hlen'].
  inversion_clear Hlen' as [| ? ? H4 _].
  unfold iso_map_G2. rewrite Htable. unfold enumerate.
  cbn [enumerate_from for_each].
  rewrite coefficients_step_horner by (lia || assumption).
  cbn [bind firstn skipn app].
  rewrite coefficients_step_horner by (lia || assumption).
  cbn [bind firstn skipn app].
  rewrite coefficients_step_horner by (lia || assumption).
  cbn [bind firstn skipn app].
  rewrite coefficients_step_horner by (lia || assumption).
  reflexivity.
Qed.

(** C7: each table is evaluated as its homogenized polynomial, the
    y-numerator is multiplied by [y] and the y-denominator by [z], and the
    output is assembled by cross-multiplication. *)
Theorem iso_map_G2_homogenized (x y z : F) (k1 k2 k3 k4 : list F) :
  coefficient_table k1 k2 k3 k4 ->
  let xNum := homogenized_poly x z k1 in
  let xDen := homogenized_poly x z k2 in
  let yNum := homogenized_poly x z k3 * y in
  let yDen := homogenized_poly x z k4 * z in
  iso_map_G2 x y z = Returned (xNum * yDen, yNum * xDen, xDen * yDen) /\
  (xDen <> 0 -> yDen <> 0 ->
   xNum * yDen / (xDen * yDen) = xNum / xDen /\
   yNum * xDen / (xDen * yDen)
   = y * homogenized_poly x z k3 / (z * homogenized_poly x z k4)).
Proof.
  intros Htable xNum xDen yNum yDen. split.
  - rewrite (iso_map_G2_value x y z k1 k2 k3 k4 Htable).
    replace (yNum * xDen) with (xDen * yNum) by ring. reflexivity.
  - intros HxDen HyDen.
    assert (Hz : z <> 0).
    { intros Hz. apply HyDen. unfold yDen. rewrite Hz. ring. }
    assert (Hk4 : homogenized_poly x z k4 <> 0).
    { intros Hk4. apply HyDen. unfold yDen. rewrite Hk4. ring. }
    split.
    + field. split; assumption.
    + unfold yNum, yDen. field. repeat split; assumption.
Qed.

(** Whatever the table, the last cell is multiplied by [z] before the
    output is assembled. *)
Lemma iso_map_G2_z_factor (x y z X Y Zo : F) :
  iso_map_G2 x y z = Returned (X, Y, Zo) ->
  exists m0 m1 m3, X = m0 * (m3 * z) /\ Zo = m1 * (m3 * z).
Proof.
  unfold iso_map_G2.
  destruct (for_each _ _ _) as [mv | e]; [| discriminate].
  destruct mv as [| m0 [| m1 [| m2 [| m3 mv]]]]; try discriminate.
  simpl. intros H. injection H as <- <- <-.
  exists m0, m1, m3. split; reflexivity.
Qed.

(** C10: with [z = 0] the evaluator returns, and the [X] and [Z]
    components of what it returns are zero. *)
Theorem iso_map_G2_degenerate (x y : F) :
  (forall k1 k2 k3 k4, coefficient_table k1 k2 k3 k4 ->
                       exists P, iso_map_G2 x y 0 = Returned P) /\
  (forall X Y Zo, iso_map_G2 x y 0 = Returned (X, Y, Zo) -> X = 0 /\ Zo = 0).
Proof.
  split.
  - intros k1 k2 k3 k4 Htable.
    rewrite (iso_map_G2_value x y 0 k1 k2 k3 k4 Htable). eexists. reflexivity.
  - intros X Y Zo H.
    destruct (iso_map_G2_z_factor x y 0 X Y Zo H) as (m0 & m1 & m3 & -> & ->).
    split; ring.
Qed.

(** * Further properties of the code *)

(** ** Square root division: what it decides and its degenerate inputs *)

Lemma sqrt_division_not_found (u v : F) :
  fst (sqrt_division_FQ2 u v) = false ->
  snd (sqrt_division_FQ2 u v) = candidate0 u v /\
  forall root, In root POSITIVE_EIGTH_ROOTS_OF_UNITY ->
               root_matches u v (candidate0 u v) root = false.
Proof.
  rewrite sqrt_division_FQ2_find.
  destruct (find _ _) as [root |] eqn:E; [discriminate |].
  intros _. split; trivial. intros root. exact (find_none _ _ E root).
Qed.

(** X1: with the field size and the table of roots of unity as they should
    be, the flag of the division tells whether [u / v] is a square. *)
Theorem sqrt_division_FQ2_decides_square (u v : F) :
  field_size_16e_plus_9 -> roots_of_unity_table -> v <> 0 ->
  (fst (sqrt_division_FQ2 u v) = true <-> exists s, s ** 2 = u / v).
Proof.
  intros Hsize Htable Hv. split.
  - intros Hfound.
    destruct (sqrt_division_FQ2 u v) as [b r] eqn:E. simpl in Hfound. subst b.
    apply sqrt_division_sound in E. destruct E as [_ Hr].
    exists r. apply -> FQ2_sub_zero in Hr.
    transitivity (r ** 2 * v / v); [field; assumption | now rewrite Hr].
  - intros [s Hs]. exact (sqrt_division_complete u v s Hsize Htable Hv Hs).
Qed.

Lemma candidate0_zero_v (u : F) : candidate0 u 0 = 0.
Proof.
  unfold candidate0.
  assert (H7 : (0 : F) ** 7 = 0) by (unfold FQ2_pow; simpl; ring).
  rewrite H7. ring.
Qed.

Lemma candidate0_zero_u (v : F) : candidate0 0 v = 0.
Proof. unfold candidate0. ring. Qed.

(** X2: with [v = 0] the returned value is zero, and the flag is set exactly
    when [u] is zero too and the table has a root to try. *)
Theorem sqrt_division_FQ2_zero_v (u : F) :
  snd (sqrt_division_FQ2 u 0) = 0 /\
  (fst (sqrt_division_FQ2 u 0) = true <->
   u = 0 /\ POSITIVE_EIGTH_ROOTS_OF_UNITY <> []).
Proof.
  rewrite sqrt_division_FQ2_find, candidate0_zero_v.
  assert (Hm : forall root, root_matches u 0 0 root = true <-> u = 0).
  { intros root. unfold root_matches. rewrite FQ2_eqb_eq, FQ2_pow_2. split.
    - intros H. transitivity (- ((root * 0) * (root * 0) * 0 - u)); [ring |].
      rewrite H. ring.
    - intros ->. ring. }
  destruct (find _ _) as [root |] eqn:E; simpl.
  - apply find_some in E. destruct E as [Hin Hroot]. split; [ring |].
    split; trivial. intros _. split.
    + now apply (Hm root).
    + intros Hnil. rewrite Hnil in Hin. exact Hin.
  - split; trivial. split; [discriminate |].
    intros [Hu Hnil]. exfalso.
    destruct POSITIVE_EIGTH_ROOTS_OF_UNITY as [| root roots]; [now apply Hnil |].
    pose proof (find_none _ _ E root (or_introl eq_refl)) as Hroot.
    rewrite (proj2 (Hm root) Hu) in Hroot. discriminate.
Qed.

(** X3: with [u = 0] and a table that is not empty the division reports the
    root zero. *)
Theorem sqrt_division_FQ2_zero_u (v : F) :
  POSITIVE_EIGTH_ROOTS_OF_UNITY <> [] ->
  sqrt_division_FQ2 0 v = (true, 0).
Proof.
  intros Hnil. rewrite sqrt_division_FQ2_find, candidate0_zero_u.
  destruct POSITIVE_EIGTH_ROOTS_OF_UNITY as [| root roots]; [now elim Hnil |].
  simpl.
  assert (Hm : root_matches 0 v 0 root = true).
  { unfold root_matches. apply FQ2_eqb_eq. rewrite FQ2_pow_2. ring. }
  rewrite Hm. f_equal. ring.
Qed.

(** ** The SWU map: the failure branch is unreachable *)

Lemma candidate0_square (u v : F) :
  candidate0 u v * candidate0 u v * v =
  (u * v ** 7 * v ** 8) ** (2 * P_MINUS_9_DIV_16 + 1) * u.
Proof.
  unfold candidate0.
  replace (2 * P_MINUS_9_DIV_16 + 1)%N
    with (P_MINUS_9_DIV_16 + P_MINUS_9_DIV_16 + 1)%N by lia.
  rewrite !FQ2_pow_add.
  assert (H1 : forall x : F, x ** 1 = x) by reflexivity.
  assert (H8 : v ** 8 = v ** 7 * v) by (unfold FQ2_pow; simpl; ring).
  rewrite H1, H8. ring.
Qed.

Lemma eighth_root_cases (x : F) : x ** 8 = 1 -> x ** 4 = 1 \/ x ** 4 = - FQ2_one.
Proof.
  intros H8.
  assert (H : (x ** 4 - 1) * (x ** 4 + 1) = 0).
  { transitivity (x ** 8 - 1); [| rewrite H8; ring].
    rewrite FQ2_pow_4. unfold FQ2_pow. simpl. ring. }
  destruct (FQ2_mul_zero _ _ H) as [H4 | H4].
  - left. now apply FQ2_sub_zero.
  - right. transitivity (x ** 4 + 1 - 1); [ring | rewrite H4; ring].
Qed.

Lemma seventh_and_eighth_power_nonzero (v : F) :
  v <> 0 -> v ** 7 <> 0 /\ v ** 8 <> 0.
Proof.
  intros Hv. unfold FQ2_pow. simpl.
  split; repeat apply FQ2_mul_nonzero; assumption.
Qed.

Lemma swu_never_raises (t : F) :
  ISO_3_A <> 0 -> ISO_3_Z <> 0 ->
  field_size_16e_plus_9 -> roots_of_unity_table -> eta_table ->
  exists P, optimized_swu_G2 t = Returned P.
Proof.
  intros HA HZ Hsize Htable Heta.
  rewrite optimized_swu_G2_cases.
  destruct (fst (swu_primary t)) eqn:Hs; [eexists; reflexivity |].
  assert (Hex : exists eta, In eta positive_eta_roots /\
            eta_matches (swu_u1 t) (swu_v t) (swu_candidate1 t) eta = true).
  { unfold swu_candidate1, swu_u1, swu_primary in *.
    destruct (sqrt_division_not_found _ _ Hs) as [Hc Hno]. rewrite Hc.
    pose proof (swu_denominator_nonzero t HA HZ) as HD.
    assert (Hv : swu_v t <> 0).
    { unfold swu_v. rewrite FQ2_pow_3. repeat apply FQ2_mul_nonzero; exact HD. }
    remember (swu_u t) as u eqn:Equ. remember (swu_v t) as v eqn:Eqv.
    pose proof (candidate0_square u v) as Hcc.
    remember (candidate0 u v) as c eqn:Eqc.
    assert (Hu : u <> 0).
    { intros Hu0. destruct (Htable 1) as (root & Hin & _).
      { rewrite FQ2_pow_4. ring. }
      pose proof (Hno root Hin) as Hroot. apply FQ2_eqb_neq in Hroot.
      apply Hroot. rewrite Eqc, Hu0, candidate0_zero_u, FQ2_pow_2. ring. }
    destruct (seventh_and_eighth_power_nonzero v Hv) as [Hv7 Hv8].
    assert (Hb : u * v ** 7 * v ** 8 <> 0) by (repeat apply FQ2_mul_nonzero; trivial).
    remember ((u * v ** 7 * v ** 8) ** (2 * P_MINUS_9_DIV_16 + 1)) as beta eqn:Eqb.
    assert (Hbeta : beta ** 8 = 1).
    { rewrite Eqb, <- FQ2_pow_mul.
      replace ((2 * P_MINUS_9_DIV_16 + 1) * 8)%N
        with (16 * P_MINUS_9_DIV_16 + 8)%N by lia.
      now apply Hsize. }
    destruct (eighth_root_cases beta Hbeta) as [H4 | H4].
    - exfalso. destruct (Htable beta H4) as (root & Hin & Hcancel).
      pose proof (Hno root Hin) as Hroot. apply FQ2_eqb_neq in Hroot.
      apply Hroot. apply FQ2_sub_zero. rewrite FQ2_pow_2 in *.
      transitivity (root * root * (c * c * v)); [ring |].
      rewrite Hcc. transitivity (root * root * beta * u); [ring |].
      rewrite Hcancel. ring.
    - destruct (Heta beta H4) as (eta & Hin & Hcancel).
      exists eta. split; trivial.
      apply FQ2_eqb_eq. apply FQ2_sub_zero.
      rewrite !FQ2_pow_2, !FQ2_pow_3 in *.
      transitivity (eta * eta * (t * (t * t)) * (t * (t * t)) * (c * c * v)); [ring |].
      rewrite Hcc.
      transitivity (eta * eta * beta * ((t * (t * t)) * (t * (t * t)) * u)); [ring |].
      rewrite Hcancel. ring. }
  destruct Hex as (eta & Hin & Hm).
  destruct (find_some_true _ _ eta Hin Hm) as [eta' ->].
  eexists. reflexivity.
Qed.

(** X4: the branch marked unreachable in the source is unreachable: with the
    field size, the roots of unity and the etas as they should be, the
    map returns for every [t]. *)
Theorem optimized_swu_G2_never_raises (t : F) :
  ISO_3_A <> 0 -> ISO_3_Z <> 0 ->
  field_size_16e_plus_9 -> roots_of_unity_table -> eta_table ->
  (exists P, optimized_swu_G2 t = Returned P) /\
  (forall e, optimized_swu_G2 t <> Raised e).
Proof.
  intros HA HZ Hsize Htable Heta.
  destruct (swu_never_raises t HA HZ Hsize Htable Heta) as [P HP].
  split; [now exists P | intros e He; congruence].
Qed.

(** ** The SWU map: which x-coordinate it selects *)

Lemma swu_u_over_v (t : F) :
  swu_denominator t <> 0 ->
  swu_u t / swu_v t = isogenous_g (swu_numerator t / swu_denominator t).
Proof.
  intros HD. unfold swu_u, swu_v, isogenous_g.
  rewrite !FQ2_pow_2, !FQ2_pow_3. field. assumption.
Qed.

(** X6: the comment [u(x1) = Z^3 * t^6 * u(x0)]: away from the exceptional
    case, [g(Z t^2 x0) = (Z t^2)^3 g(x0)] for [x0 = numerator / denominator]. *)
Theorem swu_second_candidate_relation (t : F) :
  - (ISO_3_A * (ISO_3_Z * t ** 2 + ISO_3_Z ** 2 * t ** 4)) <> 0 ->
  let x0 := swu_numerator t / swu_denominator t in
  isogenous_g (ISO_3_Z * t ** 2 * x0) = (ISO_3_Z * t ** 2) ** 3 * isogenous_g x0.
Proof.
  rewrite swu_denominator0_expanded. intros Hd x0. unfold x0.
  assert (E : (swu_denominator0 t == 0) = false) by now apply FQ2_eqb_neq.
  assert (HD : swu_denominator t <> 0).
  { unfold swu_denominator. now rewrite E. }
  rewrite <- (swu_u_over_v t HD).
  transitivity (swu_u1 t / swu_v t).
  - rewrite (swu_second_candidate t E). unfold isogenous_g, swu_v.
    rewrite !FQ2_pow_2, !FQ2_pow_3. field. assumption.
  - unfold swu_u1, swu_v. rewrite !FQ2_pow_3. field. assumption.
Qed.

(** X5: the map selects [x0 = numerator / denominator] when [g(x0)] is a
    square and [Z t^2 x0] when it is not. *)
Theorem optimized_swu_G2_x_coordinate (t X Y Zo : F) :
  field_size_16e_plus_9 -> roots_of_unity_table ->
  optimized_swu_G2 t = Returned (X, Y, Zo) -> Zo <> 0 ->
  let x0 := swu_numerator t / swu_denominator t in
  ((exists s, s ** 2 = isogenous_g x0) -> X / Zo = x0) /\
  (~ (exists s, s ** 2 = isogenous_g x0) -> X / Zo = ISO_3_Z * t ** 2 * x0).
Proof.
  intros Hsize Htable Hret HZo x0. unfold x0.
  rewrite optimized_swu_G2_cases in Hret.
  destruct (fst (swu_primary t)) eqn:Hs.
  - injection Hret as <- <- <-. split; [reflexivity |].
    intros Hnot. exfalso. apply Hnot.
    exists (snd (swu_primary t)). rewrite <- (swu_u_over_v t HZo).
    pose proof (swu_primary_square t Hs) as Hsq. apply -> FQ2_sub_zero in Hsq.
    assert (Hv : swu_v t <> 0).
    { unfold swu_v. rewrite FQ2_pow_3. repeat apply FQ2_mul_nonzero; exact HZo. }
    transitivity (snd (swu_primary t) ** 2 * swu_v t / swu_v t);
      [field; assumption | now rewrite Hsq].
  - destruct (find _ _) as [eta |]; [| discriminate].
    injection Hret as <- <- <-. split.
    + intros [s Hsq]. exfalso.
      assert (Hv : swu_v t <> 0).
      { unfold swu_v. rewrite FQ2_pow_3. repeat apply FQ2_mul_nonzero; exact HZo. }
      rewrite <- (swu_u_over_v t HZo) in Hsq.
      pose proof (sqrt_division_complete _ _ s Hsize Htable Hv Hsq) as Hfound.
      unfold swu_primary in Hs. congruence.
    + intros _. field. assumption.
Qed.

(** ** The SWU map: where the exceptional case occurs *)

Lemma swu_denominator0_zero_iff (t : F) :
  ISO_3_A <> 0 -> ISO_3_Z <> 0 -> minus_one_over_Z_not_square ->
  (- (ISO_3_A * (ISO_3_Z * t ** 2 + ISO_3_Z ** 2 * t ** 4)) = 0 <-> t = 0).
Proof.
  intros HA HZ Hns. rewrite swu_denominator0_expanded. split.
  - unfold swu_denominator0, swu_s. intros H.
    assert (Hs : ISO_3_Z * t ** 2 * (1 + ISO_3_Z * t ** 2) = 0).
    { destruct (FQ2_mul_zero ISO_3_A
                  (ISO_3_Z * t ** 2 + (ISO_3_Z * t ** 2) ** 2)) as [H0 | H0].
      - transitivity (- - (ISO_3_A * (ISO_3_Z * t ** 2 + (ISO_3_Z * t ** 2) ** 2)));
          [ring | rewrite H; ring].
      - contradiction.
      - rewrite <- H0. rewrite (FQ2_pow_2 (ISO_3_Z * t ** 2)). ring. }
    destruct (FQ2_mul_zero _ _ Hs) as [Hw | Hw].
    + destruct (FQ2_mul_zero _ _ Hw) as [H0 | H0]; [contradiction |].
      rewrite FQ2_pow_2 in H0.
      destruct (FQ2_mul_zero _ _ H0); assumption.
    + exfalso. apply (Hns t).
      transitivity (1 + ISO_3_Z * t ** 2 - 1); [ring | rewrite Hw; ring].
  - intros ->. unfold swu_denominator0, swu_s. rewrite !FQ2_pow_2. ring.
Qed.

(** X7: with [A] and [Z] nonzero and [-1 / Z] not a square, the exceptional
    denominator occurs at [t = 0] and nowhere else: the returned
    denominator is [Z A] at zero and [-(A (Z t^2 + Z^2 t^4))] elsewhere. *)
Theorem swu_exceptional_iff_zero (t : F) :
  ISO_3_A <> 0 -> ISO_3_Z <> 0 -> minus_one_over_Z_not_square ->
  let d := - (ISO_3_A * (ISO_3_Z * t ** 2 + ISO_3_Z ** 2 * t ** 4)) in
  (d = 0 <-> t = 0) /\
  (forall X Y Zo,
     optimized_swu_G2 t = Returned (X, Y, Zo) ->
     (t = 0 -> Zo = ISO_3_Z * ISO_3_A) /\ (t <> 0 -> Zo = d)).
Proof.
  intros HA HZ Hns d.
  pose proof (swu_denominator0_zero_iff t HA HZ Hns) as Hiff. fold d in Hiff.
  split; [exact Hiff |].
  intros X Y Zo Hret.
  rewrite (swu_returned_denominator _ _ _ _ Hret).
  unfold swu_denominator. unfold d in *.
  rewrite swu_denominator0_expanded in Hiff.
  split; intros Ht.
  - apply Hiff in Ht. apply FQ2_eqb_eq in Ht. now rewrite Ht.
  - assert (Hd : swu_denominator0 t <> 0) by (intros H; apply Ht; now apply Hiff).
    apply FQ2_eqb_neq in Hd. rewrite Hd. symmetry. apply swu_denominator0_expanded.
Qed.

(** ** The SWU map: negating the input *)

Lemma find_ext_eq {A : Type} (f g : A -> bool) (xs : list A) :
  (forall x, f x = g x) -> find f xs = find g xs.
Proof.
  intros H. induction xs as [| x xs IH]; simpl; trivial.
  rewrite H, IH. reflexivity.
Qed.

Lemma FQ2_pow_2_neg (t : F) : (- t) ** 2 = t ** 2.
Proof. rewrite !FQ2_pow_2. ring. Qed.

Lemma FQ2_pow_3_neg (t : F) : (- t) ** 3 = - t ** 3.
Proof. rewrite !FQ2_pow_3. ring. Qed.

Lemma swu_s_neg (t : F) : swu_s (- t) = swu_s t.
Proof. unfold swu_s. now rewrite FQ2_pow_2_neg. Qed.

Lemma swu_denominator_neg (t : F) : swu_denominator (- t) = swu_denominator t.
Proof. unfold swu_denominator, swu_denominator0. now rewrite swu_s_neg. Qed.

Lemma swu_numerator_neg (t : F) : swu_numerator (- t) = swu_numerator t.
Proof. unfold swu_numerator. now rewrite swu_s_neg. Qed.

Lemma swu_primary_neg (t : F) : swu_primary (- t) = swu_primary t.
Proof.
  unfold swu_primary, swu_u, swu_v.
  now rewrite swu_numerator_neg, swu_denominator_neg.
Qed.

Lemma swu_candidate1_neg (t : F) : swu_candidate1 (- t) = - swu_candidate1 t.
Proof.
  unfold swu_candidate1. rewrite swu_primary_neg, FQ2_pow_3_neg. ring.
Qed.

Lemma swu_eta_search_neg (t : F) :
  find (eta_matches (swu_u1 (- t)) (swu_v (- t)) (swu_candidate1 (- t)))
       positive_eta_roots =
  find (eta_matches (swu_u1 t) (swu_v t) (swu_candidate1 t)) positive_eta_roots.
Proof.
  apply find_ext_eq. intros eta.
  unfold eta_matches, swu_u1, swu_candidate1, swu_u, swu_v.
  rewrite swu_primary_neg, swu_numerator_neg, swu_denominator_neg,
    FQ2_pow_2_neg, FQ2_pow_3_neg.
  replace ((eta * (snd (swu_primary t) * - t ** 3)) ** 2)
    with ((eta * (snd (swu_primary t) * t ** 3)) ** 2)
    by (rewrite !FQ2_pow_2; ring).
  reflexivity.
Qed.

Lemma canonical_sign_cases (t y : F) :
  canonical_sign t y = y \/ canonical_sign t y = - y.
Proof. unfold canonical_sign. destruct (negb _); auto. Qed.

Lemma swu_neg (t : F) :
  (forall e, optimized_swu_G2 t = Raised e -> optimized_swu_G2 (- t) = Raised e) /\
  (forall X Y Zo,
     optimized_swu_G2 t = Returned (X, Y, Zo) ->
     exists Y', optimized_swu_G2 (- t) = Returned (X, Y', Zo) /\
                (Y' = Y \/ Y' = - Y)).
Proof.
  rewrite !optimized_swu_G2_cases.
  rewrite swu_eta_search_neg, swu_primary_neg, swu_numerator_neg,
    swu_denominator_neg, FQ2_pow_2_neg.
  destruct (fst (swu_primary t)).
  - split; [discriminate |].
    intros X Y Zo H. injection H as <- <- <-.
    eexists. split; [reflexivity |].
    destruct (canonical_sign_cases t (snd (swu_primary t))) as [-> | ->],
             (canonical_sign_cases (- t) (snd (swu_primary t))) as [-> | ->];
      [left | right | right | left]; ring.
  - destruct (find _ _) as [eta |].
    + split; [discriminate |].
      intros X Y Zo H. injection H as <- <- <-.
      eexists. split; [reflexivity |].
      rewrite swu_candidate1_neg.
      replace (- swu_candidate1 t * eta)
        with (- (swu_candidate1 t * eta)) by ring.
      destruct (canonical_sign_cases t (swu_candidate1 t * eta)) as [-> | ->],
               (canonical_sign_cases (- t) (- (swu_candidate1 t * eta))) as [-> | ->];
        [right | left | left | right]; ring.
    + split; [trivial | discriminate].
Qed.

(** X8: the map at [-t] fails exactly when the map at [t] fails, and otherwise
    returns the same [X] and [Z], with [Y] the same up to sign. *)
Theorem optimized_swu_G2_negated_input (t : F) :
  (forall e, optimized_swu_G2 (- t) = Raised e <-> optimized_swu_G2 t = Raised e) /\
  (forall X Y Zo,
     optimized_swu_G2 t = Returned (X, Y, Zo) ->
     exists Y', optimized_swu_G2 (- t) = Returned (X, Y', Zo) /\
                (Y' = Y \/ Y' = - Y)).
Proof.
  split.
  - intros e. split.
    + intros H. apply (proj1 (swu_neg (- t))) in H.
      replace (- - t) with t in H by ring. exact H.
    + apply (proj1 (swu_neg t)).
  - exact (proj2 (swu_neg t)).
Qed.

Lemma swu_output_sign (t X Y Zo : F) :
  ISO_3_A <> 0 -> ISO_3_Z <> 0 -> no_point_of_order_two -> sgn0_canonical ->
  t <> 0 ->
  optimized_swu_G2 t = Returned (X, Y, Zo) ->
  sgn0 (Y / Zo) = sgn0 t.
Proof.
  intros HA HZ Hg Hsgn Ht Hret.
  pose proof (swu_denominator_nonzero t HA HZ) as HD.
  pose proof (swu_u_nonzero t Hg HD) as Hu.
  rewrite optimized_swu_G2_cases in Hret.
  assert (Hscale : forall y, canonical_sign t y * swu_denominator t / swu_denominator t
                             = canonical_sign t y) by (intros; field; assumption).
  destruct (fst (swu_primary t)) eqn:Hs.
  - injection Hret as <- <- <-. rewrite Hscale.
    apply sgn0_canonical_sign; trivial.
    exact (square_times_nonzero _ _ _ (swu_primary_square t Hs) Hu).
  - destruct (find _ _) as [eta |] eqn:Hf; [| discriminate].
    injection Hret as <- <- <-. rewrite Hscale.
    apply sgn0_canonical_sign; trivial.
    destruct (swu_eta_square _ _ Hf) as [_ Heta].
    apply (square_times_nonzero _ _ _ Heta).
    unfold swu_u1. rewrite FQ2_pow_3, FQ2_pow_2.
    repeat apply FQ2_mul_nonzero; trivial.
Qed.

Lemma swu_odd (t X Y Zo : F) :
  ISO_3_A <> 0 -> ISO_3_Z <> 0 -> no_point_of_order_two ->
  sgn0_canonical -> sgn0_odd ->
  t <> 0 ->
  optimized_swu_G2 t = Returned (X, Y, Zo) ->
  optimized_swu_G2 (- t) = Returned (X, - Y, Zo).
Proof.
  intros HA HZ Hg Hsgn Hodd Ht Hret.
  destruct (proj2 (swu_neg t) X Y Zo Hret) as (Y' & Hret' & [-> | ->]);
    [exfalso | exact Hret'].
  apply (Hodd t Ht).
  rewrite <- (swu_output_sign (- t) X Y Zo HA HZ Hg Hsgn (FQ2_neg_nonzero t Ht) Hret').
  exact (swu_output_sign t X Y Zo HA HZ Hg Hsgn Ht Hret).
Qed.

(** X9: the map is odd: for nonzero [t], when [sgn0] is odd as well, the map
    at [-t] returns the negated point. *)
Theorem optimized_swu_G2_odd (t X Y Zo : F) :
  ISO_3_A <> 0 -> ISO_3_Z <> 0 -> no_point_of_order_two ->
  sgn0_canonical -> sgn0_odd ->
  t <> 0 ->
  optimized_swu_G2 t = Returned (X, Y, Zo) ->
  optimized_swu_G2 (- t) = Returned (X, - Y, Zo).
Proof.
  intros HA HZ Hg Hsgn Hodd Ht Hret.
  destruct (proj2 (swu_neg t) X Y Zo Hret) as (Y' & Hret' & [-> | ->]);
    [exfalso | exact Hret'].
  pose proof (swu_output_sign t X Y Zo HA HZ Hg Hsgn Ht Hret) as Hsign.
  pose proof (swu_output_sign (- t) X Y Zo HA HZ Hg Hsgn
                (FQ2_neg_nonzero t Ht) Hret') as Hsign'.
  apply (Hodd t Ht). congruence.
Qed.

(** ** The isogeny evaluator: bounds *)

Lemma horner_loop_in_bounds (x z : F) (i : nat) (l : list F) :
  (i < 4)%nat ->
  forall (j : nat) (m0 m1 m2 m3 : F),
    (j + List.length l <= 3)%nat ->
    exists n0 n1 n2 n3,
      for_each (horner_step x [z; z ** 2; z ** 3] i)
               (enumerate_from j l) [m0; m1; m2; m3] =
      Returned [n0; n1; n2; n3].
Proof.
  intros Hi. induction l as [| c l IH]; intros j m0 m1 m2 m3 Hj.
  - exists m0, m1, m2, m3. reflexivity.
  - simpl in Hj.
    destruct i as [| [| [| [| i]]]]; try lia;
      destruct j as [| [| [| j]]]; try lia;
      simpl; apply IH; lia.
Qed.

Lemma horner_loop_out_of_bounds (x z : F) (i : nat) (l : list F) :
  (i < 4)%nat ->
  forall (j : nat) (m0 m1 m2 m3 : F),
    (j <= 3)%nat -> (3 < j + List.length l)%nat ->
    exists msg,
      for_each (horner_step x [z; z ** 2; z ** 3] i)
               (enumerate_from j l) [m0; m1; m2; m3] =
      Raised (IndexError msg).
Proof.
  intros Hi. induction l as [| c l IH]; intros j m0 m1 m2 m3 Hj Hlen.
  - simpl in Hlen. lia.
  - simpl in Hlen.
    destruct i as [| [| [| [| i]]]]; try lia;
      destruct j as [| [| [| [| j]]]]; try lia;
      simpl; try (apply IH; lia); eexists; reflexivity.
Qed.

Lemma slice_last_nonempty {A : Type} (k : list A) :
  k <> [] -> exists c, list_get (slice_last k) 0 = Returned c.
Proof.
  unfold slice_last. induction k as [| a k IH]; [congruence |].
  intros _. destruct k as [| b k].
  - exists a. reflexivity.
  - destruct IH as [c Hc]; [discriminate |]. exists c.
    simpl in *. now rewrite Nat.sub_0_r in Hc.
Qed.

Lemma length_slice_but_last {A : Type} (k : list A) :
  List.length (slice_but_last k) = (List.length k - 1)%nat.
Proof.
  unfold slice_but_last. induction k as [| a k IH]; trivial.
  destruct k as [| b k]; trivial.
  change (S (List.length (removelast (b :: k))) = S (List.length (b :: k)) - 1)%nat.
  rewrite IH. simpl. lia.
Qed.

Lemma coefficients_step_out_of_bounds (x z m0 m1 m2 m3 : F) (i : nat) (k : list F) :
  (4 <= i)%nat \/ k = [] \/ (4 < List.length k)%nat ->
  exists msg,
    coefficients_step x [z; z ** 2; z ** 3] [m0; m1; m2; m3] (i, k) =
    Raised (IndexError msg).
Proof.
  intros Hbad. unfold coefficients_step.
  destruct k as [| c0 k]; [eexists; reflexivity |].
  destruct (slice_last_nonempty (c0 :: k)) as [top ->]; [discriminate |].
  cbn [bind].
  destruct (Nat.lt_ge_cases i 4) as [Hi | Hi].
  - destruct Hbad as [Hbad | [Hbad | Hbad]]; [lia | discriminate |].
    assert (Hlen : (3 < 0 + List.length (rev (slice_but_last (c0 :: k))))%nat).
    { rewrite length_rev, length_slice_but_last. lia. }
    unfold enumerate.
    destruct i as [| [| [| [| i]]]]; try lia; cbn [list_set List.length Nat.ltb
      Nat.leb firstn skipn app bind];
      apply horner_loop_out_of_bounds; lia.
  - unfold list_set. cbn [List.length].
    destruct (Nat.ltb_spec i 4) as [Hlt | _]; [lia |].
    eexists. reflexivity.
Qed.

Lemma coefficients_step_in_bounds (x z m0 m1 m2 m3 : F) (i : nat) (k : list F) :
  (i < 4)%nat -> (1 <= List.length k <= 4)%nat ->
  exists n0 n1 n2 n3,
    coefficients_step x [z; z ** 2; z ** 3] [m0; m1; m2; m3] (i, k) =
    Returned [n0; n1; n2; n3].
Proof.
  intros Hi Hk. rewrite coefficients_step_horner by assumption.
  destruct i as [| [| [| [| i]]]]; try lia; simpl;
    do 4 eexists; reflexivity.
Qed.

Lemma table_loop_in_bounds (x z : F) (table : list (list F)) :
  forall (i : nat) (m0 m1 m2 m3 : F),
    (i + List.length table <= 4)%nat ->
    Forall (fun k => 1 <= List.length k <= 4)%nat table ->
    exists n0 n1 n2 n3,
      for_each (coefficients_step x [z; z ** 2; z ** 3])
               (enumerate_from i table) [m0; m1; m2; m3] =
      Returned [n0; n1; n2; n3].
Proof.
  induction table as [| k table IH]; intros i m0 m1 m2 m3 Hi Hok.
  - exists m0, m1, m2, m3. reflexivity.
  - simpl in Hi. inversion_clear Hok as [| ? ? Hk Htl].
    destruct (coefficients_step_in_bounds x z m0 m1 m2 m3 i k)
      as (n0 & n1 & n2 & n3 & Hstep); [lia | assumption |].
    cbn [enumerate_from for_each]. rewrite Hstep. cbn [bind].
    apply IH; [lia | assumption].
Qed.

Lemma table_loop_out_of_bounds (x z : F) (table : list (list F)) :
  forall (i : nat) (m0 m1 m2 m3 : F),
    (i <= 4)%nat ->
    ~ ((i + List.length table <= 4)%nat /\
       Forall (fun k => 1 <= List.length k <= 4)%nat table) ->
    exists msg,
      for_each (coefficients_step x [z; z ** 2; z ** 3])
               (enumerate_from i table) [m0; m1; m2; m3] =
      Raised (IndexError msg).
Proof.
  induction table as [| k table IH]; intros i m0 m1 m2 m3 Hi Hbad.
  - exfalso. apply Hbad. split; [simpl; lia | constructor].
  - cbn [enumerate_from for_each].
    assert (Hcases : ((i < 4)%nat /\ (1 <= List.length k <= 4)%nat) \/
                     ((4 <= i)%nat \/ k = [] \/ (4 < List.length k)%nat)).
    { destruct k as [| c0 k']; [right; auto |]. simpl. lia. }
    destruct Hcases as [[Hlt Hk] | Hstep].
    + destruct (coefficients_step_in_bounds x z m0 m1 m2 m3 i k Hlt Hk)
        as (n0 & n1 & n2 & n3 & ->).
      cbn [bind]. apply IH; [lia |].
      intros [Hlen Hok]. apply Hbad. split; [simpl; lia |].
      constructor; assumption.
    + destruct (coefficients_step_out_of_bounds x z m0 m1 m2 m3 i k Hstep)
        as [msg ->].
      now exists msg.
Qed.

Lemma table_in_bounds_dec : table_in_bounds \/ ~ table_in_bounds.
Proof.
  unfold table_in_bounds.
  destruct (Nat.le_gt_cases (List.length ISO_3_MAP_COEFFICIENTS) 4) as [Hlen | Hlen];
    [| right; intros [H _]; lia].
  destruct (Forall_dec (fun k : list F => (1 <= List.length k <= 4)%nat)) with
    (l := ISO_3_MAP_COEFFICIENTS) as [Hok | Hbad].
  - intros k. destruct (le_dec 1 (List.length k)), (le_dec (List.length k) 4);
      (left; lia) || (right; lia).
  - left. now split.
  - right. intros [_ H]. contradiction.
Qed.

(** X10: the evaluator returns when the table has at most four sequences of
    one to four coefficients each, and raises [IndexError] otherwise,
    whatever the point. *)
Theorem iso_map_G2_index_errors (x y z : F) :
  (table_in_bounds -> exists P, iso_map_G2 x y z = Returned P) /\
  (~ table_in_bounds -> exists msg, iso_map_G2 x y z = Raised (IndexError msg)) /\
  ((exists P, iso_map_G2 x y z = Returned P) -> table_in_bounds).
Proof.
  assert (Hin : table_in_bounds -> exists P, iso_map_G2 x y z = Returned P).
  { intros [Hlen Hok]. unfold iso_map_G2, enumerate.
    destruct (table_loop_in_bounds x z ISO_3_MAP_COEFFICIENTS 0 0 0 0 0)
      as (n0 & n1 & n2 & n3 & ->); [lia | assumption |].
    simpl. eexists. reflexivity. }
  assert (Hout : ~ table_in_bounds ->
                 exists msg, iso_map_G2 x y z = Raised (IndexError msg)).
  { intros Hbad. unfold iso_map_G2, enumerate.
    destruct (table_loop_out_of_bounds x z ISO_3_MAP_COEFFICIENTS 0 0 0 0 0)
      as [msg ->]; [lia | exact Hbad |].
    now exists msg. }
  split; [exact Hin | split; [exact Hout |]].
  intros [P HP]. destruct table_in_bounds_dec as [H | H]; trivial.
  destruct (Hout H) as [msg Hmsg]. congruence.
Qed.

(** ** The isogeny evaluator: symmetries *)

Lemma iso_map_G2_cells (x y z : F) (P : Optimized_Point3D F) :
  iso_map_G2 x y z = Returned P ->
  exists m0 m1 m2 m3,
    forall y', iso_map_G2 x y' z =
               Returned (m0 * (m3 * z), m1 * (m2 * y'), m1 * (m3 * z)).
Proof.
  unfold iso_map_G2.
  destruct (for_each _ _ _) as [mv | e]; [| discriminate].
  destruct mv as [| m0 [| m1 [| m2 [| m3 mv]]]]; try discriminate.
  intros _. exists m0, m1, m2, m3. intros y'. reflexivity.
Qed.

Lemma iso_map_G2_neg (x y z X Y Zo : F) :
  iso_map_G2 x y z = Returned (X, Y, Zo) ->
  iso_map_G2 x (- y) z = Returned (X, - Y, Zo) /\
  (forall y', exists Y', iso_map_G2 x y' z = Returned (X, Y', Zo)).
Proof.
  intros Hret.
  destruct (iso_map_G2_cells x y z _ Hret) as (m0 & m1 & m2 & m3 & Hall).
  rewrite (Hall y) in Hret. injection Hret as <- <- <-.
  split.
  - rewrite (Hall (- y)).
    replace (m1 * (m2 * - y)) with (- (m1 * (m2 * y))) by ring. reflexivity.
  - intros y'. eexists. apply Hall.
Qed.

(** X11: the evaluator commutes with negation of the point: negating [y]
    negates [Y] and leaves [X] and [Z], which do not depend on [y]. *)
Theorem iso_map_G2_negated_y (x y z X Y Zo : F) :
  iso_map_G2 x y z = Returned (X, Y, Zo) ->
  iso_map_G2 x (- y) z = Returned (X, - Y, Zo) /\
  (forall y', exists Y', iso_map_G2 x y' z = Returned (X, Y', Zo)).
Proof.
  intros Hret.
  destruct (iso_map_G2_cells x y z _ Hret) as (m0 & m1 & m2 & m3 & Hall).
  rewrite (Hall y) in Hret. injection Hret as <- <- <-.
  split.
  - rewrite (Hall (- y)). apply f_equal.
    apply f_equal2; [apply f_equal2 |]; ring.
  - intros y'. exists (m1 * (m2 * y')). apply Hall.
Qed.

(** ** The two maps in sequence *)

(** X13: mapping [-t] to the isogenous curve and on through the evaluator
    gives the negation of the point obtained from [t]. *)
Theorem swu_then_iso_map_odd (t X Y Zo X' Y' Zo' : F) :
  ISO_3_A <> 0 -> ISO_3_Z <> 0 -> no_point_of_order_two ->
  sgn0_canonical -> sgn0_odd ->
  t <> 0 ->
  optimized_swu_G2 t = Returned (X, Y, Zo) ->
  iso_map_G2 X Y Zo = Returned (X', Y', Zo') ->
  (P <- optimized_swu_G2 (- t) ;; let '(X1, Y1, Z1) := P in iso_map_G2 X1 Y1 Z1)
  = Returned (X', - Y', Zo').
Proof.
  intros HA HZ Hg Hsgn Hodd Ht Hswu Hiso.
  rewrite (swu_odd t X Y Zo HA HZ Hg Hsgn Hodd Ht Hswu). cbn [bind].
  exact (proj1 (iso_map_G2_neg X Y Zo X' Y' Zo' Hiso)).
Qed.

Lemma homogenized_poly_scale (l x z : F) (k : list F) :
  (1 <= List.length k <= 4)%nat ->
  homogenized_poly (l * x) (l * z) k =
  l ** N.of_nat (List.length k - 1) * homogenized_poly x z k.
Proof.
  intros Hk.
  destruct k as [| c0 [| c1 [| c2 [| c3 [| c4 k]]]]]; simpl in Hk; try lia;
    unfold homogenized_poly; simpl; unfold FQ2_pow; simpl; ring.
Qed.

(** X12: the evaluator is defined on projective points: when the four
    sequences have the same number [n] of coefficients, scaling the input
    by [l] scales the output by [l^(2 n - 1)]. *)
Theorem iso_map_G2_projective (l x y z : F) (k1 k2 k3 k4 : list F) :
  coefficient_table k1 k2 k3 k4 ->
  List.length k2 = List.length k1 ->
  List.length k3 = List.length k1 ->
  List.length k4 = List.length k1 ->
  exists X Y Zo,
    iso_map_G2 x y z = Returned (X, Y, Zo) /\
    iso_map_G2 (l * x) (l * y) (l * z) =
    Returned (l ** N.of_nat (2 * List.length k1 - 1) * X,
              l ** N.of_nat (2 * List.length k1 - 1) * Y,
              l ** N.of_nat (2 * List.length k1 - 1) * Zo).
Proof.
  intros Htable H2 H3 H4.
  rewrite !(iso_map_G2_value _ _ _ k1 k2 k3 k4 Htable).
  do 3 eexists. split; [reflexivity |].
  destruct Htable as [_ Hlen].
  inversion_clear Hlen as [| ? ? L1 Hlen'].
  inversion_clear Hlen' as [| ? ? L2 Hlen].
  inversion_clear Hlen as [| ? ? L3 Hlen'].
  inversion_clear Hlen' as [| ? ? L4 _].
  rewrite !homogenized_poly_scale by assumption.
  rewrite H2, H3, H4.
  replace (N.of_nat (2 * List.length k1 - 1))
    with (N.of_nat (List.length k1 - 1) + N.of_nat (List.length k1 - 1) + 1)%N
    by lia.
  rewrite !FQ2_pow_add.
  assert (H1 : l ** 1 = l) by reflexivity. rewrite H1.
  apply f_equal. apply f_equal2; [apply f_equal2 |]; ring.
Qed.

End Theory.

(** * The nine-element field as an instance *)

Lemma GF9_field_theory :
  field_theory GF9.zero GF9.one GF9.add GF9.mul GF9.sub GF9.neg
               GF9.div GF9.inv (@eq GF9.t).
Proof.
  constructor; [constructor | | |].
  - intros [[] []]; reflexivity.
  - intros [[] []] [[] []]; reflexivity.
  - intros [[] []] [[] []] [[] []]; reflexivity.
  - intros [[] []]; reflexivity.
  - intros [[] []] [[] []]; reflexivity.
  - intros [[] []] [[] []] [[] []]; reflexivity.
  - intros [[] []] [[] []] [[] []]; reflexivity.
  - reflexivity.
  - intros [[] []]; reflexivity.
  - discriminate.
  - reflexivity.
  - intros [[] []] H; try reflexivity. now elim H.
Qed.

Lemma GF9_eqb_eq (x y : GF9.t) : GF9.eqb x y = true <-> x = y.
Proof.
  destruct x as [[] []], y as [[] []]; split; intros H;
    solve [reflexivity | discriminate H].
Qed.

#[export] Instance GF9_field : Optimized_Field GF9.t := {|
  FQ2_zero := GF9.zero;
  FQ2_one := GF9.one;
  FQ2_add := GF9.add;
  FQ2_mul := GF9.mul;
  FQ2_sub := GF9.sub;
  FQ2_neg := GF9.neg;
  FQ2_div := GF9.div;
  FQ2_inv := GF9.inv;
  FQ2_eqb := GF9.eqb;
  sgn0 := GF9.sign;
  FQ2 := GF9.of_coeffs;
  FQ2_field := GF9_field_theory;
  FQ2_eqb_eq := GF9_eqb_eq
|}.

#[export] Existing Instance GF9.constants.

Import GF9.
Local Open Scope FQ2_scope.

Lemma GF9_A_nonzero : ISO_3_A <> FQ2_zero.
Proof. discriminate. Qed.

Lemma GF9_Z_nonzero : ISO_3_Z <> FQ2_zero.
Proof. discriminate. Qed.

Lemma GF9_exceptional_case_square : exceptional_case_square.
Proof. reflexivity. Qed.

Lemma GF9_field_size : field_size_16e_plus_9.
Proof. intros [[] []] H; try reflexivity. now elim H. Qed.

Lemma GF9_roots_of_unity_table : roots_of_unity_table.
Proof.
  intros [[] []] H; try discriminate H;
    first [ exists (f1, f0); split; [simpl; tauto | reflexivity]
          | exists (f0, f1); split; [simpl; tauto | reflexivity]
          | exists (f1, f1); split; [simpl; tauto | reflexivity]
          | exists (f1, f2); split; [simpl; tauto | reflexivity] ].
Qed.

Lemma GF9_exceptional_x_square : exceptional_x_square.
Proof. exists (f1, f2). reflexivity. Qed.

Lemma GF9_exceptional_case_square_derived : exceptional_case_square.
Proof.
  apply exceptional_case_square_of_constants.
  - exact GF9_field_size.
  - exact GF9_roots_of_unity_table.
  - discriminate.
  - exact GF9_exceptional_x_square.
Qed.

Lemma GF9_no_point_of_order_two : no_point_of_order_two.
Proof. intros [[] []]; discriminate. Qed.

Lemma GF9_sgn0_canonical : sgn0_canonical.
Proof.
  intros [[] []] [[] []] Hx Hy Hs;
    first [reflexivity | now elim Hx | now elim Hy | now elim Hs].
Qed.

Lemma GF9_coefficient_table :
  coefficient_table
    [(f1, f1); (f0, f2); (f2, f0); (f1, f0)]
    [(f0, f1); (f2, f2); (f1, f0)]
    [(f2, f1); (f1, f0); (f0, f1); (f1, f2)]
    [(f1, f2); (f2, f0); (f0, f2); (f1, f0)].
Proof.
  split; [reflexivity |]. repeat constructor.
Qed.

(** * The code run on the nine-element field *)

Example optimized_swu_G2_primary_branch :
  optimized_swu_G2 (f0, f1) = Returned ((f1, f0), (f0, f1), (f2, f1)).
Proof. reflexivity. Qed.

Example optimized_swu_G2_eta_branch :
  fst (swu_primary (f1, f0)) = false /\
  optimized_swu_G2 (f1, f0) = Returned ((f2, f2), (f1, f0), (f0, f2)).
Proof. split; reflexivity. Qed.

Example optimized_swu_G2_never_raises_on_GF9 :
  forall t : GF9.t, exists P, optimized_swu_G2 t = Returned P.
Proof. intros [[] []]; vm_compute; eexists; reflexivity. Qed.

Example optimized_swu_G2_corrupted_table_raises :
  @optimized_swu_G2 GF9.t GF9_field GF9.corrupted_constants (f1, f0) =
  Raised (Exception "Hash to Curve - Optimized SWU failure").
Proof. reflexivity. Qed.

Example sqrt_division_FQ2_later_match_ignored :
  Forall (fun root => root_matches (f0, f0) (f1, f0)
                        (candidate0 (f0, f0) (f1, f0)) root = true)
         POSITIVE_EIGTH_ROOTS_OF_UNITY /\
  sqrt_division_FQ2 (f0, f0) (f1, f0) =
  (true, (f1, f0) * candidate0 (f0, f0) (f1, f0)).
Proof. split; [repeat constructor | reflexivity]. Qed.

Example iso_map_G2_after_swu :
  iso_map_G2 (f2, f2) (f1, f0) (f0, f2) = Returned ((f2, f2), (f2, f2), (f0, f1)).
Proof. reflexivity. Qed.

(** * Instances of the theorems *)

Lemma optimized_swu_G2_on_curve_witness :
  (optimized_swu_G2 (f1, f0) = Returned ((f2, f2), (f1, f0), (f0, f2)) /\
   (f0, f2) <> FQ2_zero /\
   ((f1, f0) / (f0, f2)) ** 2 =
   ((f2, f2) / (f0, f2)) ** 3 + ISO_3_A * ((f2, f2) / (f0, f2)) + ISO_3_B) /\
  (exceptional_case_square /\
   optimized_swu_G2 (f0, f0) = Returned ((f0, f1), (f1, f0), (f1, f1)) /\
   (f1, f1) <> FQ2_zero /\
   ((f1, f0) / (f1, f1)) ** 2 =
   ((f0, f1) / (f1, f1)) ** 3 + ISO_3_A * ((f0, f1) / (f1, f1)) + ISO_3_B).
Proof.
  split.
  - split; [reflexivity |].
    split; [discriminate |].
    apply (optimized_swu_G2_on_curve (f1, f0) (f2, f2) (f1, f0) (f0, f2)).
    + intros H. discriminate H.
    + reflexivity.
    + discriminate.
  - split; [exact GF9_exceptional_case_square_derived |].
    split; [reflexivity |].
    split; [discriminate |].
    apply (optimized_swu_G2_on_curve (f0, f0) (f0, f1) (f1, f0) (f1, f1)).
    + intros _. exact GF9_exceptional_case_square_derived.
    + reflexivity.
    + discriminate.
Defined.

Lemma sqrt_division_FQ2_found_is_root_witness :
  (f0, f1) <> FQ2_zero /\
  sqrt_division_FQ2 (f2, f0) (f0, f1) = (true, (f2, f1)) /\
  (exists root, In root POSITIVE_EIGTH_ROOTS_OF_UNITY /\
                (f2, f1) = root * candidate0 (f2, f0) (f0, f1)) /\
  (f2, f1) ** 2 * (f0, f1) - (f2, f0) = FQ2_zero /\
  (f2, f1) ** 2 = (f2, f0) / (f0, f1).
Proof.
  split; [discriminate |].
  split; [reflexivity |].
  apply (sqrt_division_FQ2_found_is_root (f2, f0) (f0, f1) (f2, f1)).
  - discriminate.
  - reflexivity.
Defined.

Lemma sqrt_division_FQ2_first_match_witness :
  sqrt_division_FQ2 (f0, f1) (f1, f0) =
  (true, (f1, f1) * candidate0 (f0, f1) (f1, f0)) /\
  sqrt_division_FQ2 (f1, f1) (f1, f0) = (false, candidate0 (f1, f1) (f1, f0)).
Proof.
  split.
  - apply (proj2 (proj2 (sqrt_division_FQ2_first_match (f0, f1) (f1, f0)))
             [(f1, f0); (f0, f1)] (f1, f1) [(f1, f2)]).
    + reflexivity.
    + intros r [<- | [<- | []]] H; vm_compute in H; discriminate H.
    + reflexivity.
  - apply (proj1 (proj2 (sqrt_division_FQ2_first_match (f1, f1) (f1, f0)))).
    intros root [<- | [<- | [<- | [<- | []]]]] H; vm_compute in H; discriminate H.
Defined.

Lemma optimized_swu_G2_exceptional_denominator_witness :
  ISO_3_A <> FQ2_zero /\ ISO_3_Z <> FQ2_zero /\ exceptional_case_square /\
  - (ISO_3_A * (ISO_3_Z * (f0, f0) ** 2 + ISO_3_Z ** 2 * (f0, f0) ** 4)) = FQ2_zero /\
  (exists X Y,
     optimized_swu_G2 (f0, f0) = Returned (X, Y, ISO_3_Z * ISO_3_A) /\
     (Y / (ISO_3_Z * ISO_3_A)) ** 2 =
     (X / (ISO_3_Z * ISO_3_A)) ** 3
     + ISO_3_A * (X / (ISO_3_Z * ISO_3_A)) + ISO_3_B) /\
  (f0, f2) =
  - (ISO_3_A * (ISO_3_Z * (f1, f0) ** 2 + ISO_3_Z ** 2 * (f1, f0) ** 4)).
Proof.
  split; [exact GF9_A_nonzero |].
  split; [exact GF9_Z_nonzero |].
  split; [exact GF9_exceptional_case_square |].
  split; [reflexivity |].
  split.
  - apply (proj2 (proj2 (optimized_swu_G2_exceptional_denominator (f0, f0)))
             GF9_A_nonzero GF9_Z_nonzero GF9_exceptional_case_square).
    reflexivity.
  - apply (proj1 (proj2 (optimized_swu_G2_exceptional_denominator (f1, f0))))
      with (X := (f2, f2)) (Y := (f1, f0)).
    + discriminate.
    + reflexivity.
Defined.

Lemma optimized_swu_G2_raises_iff_witness :
  let K := GF9.corrupted_constants in
  fst (sqrt_division_FQ2 (swu_u (f1, f0)) (swu_v (f1, f0))) = false /\
  forall eta, In eta positive_eta_roots ->
    (eta * (snd (sqrt_division_FQ2 (swu_u (f1, f0)) (swu_v (f1, f0)))
            * (f1, f0) ** 3)) ** 2 * swu_v (f1, f0)
    - (ISO_3_Z * (f1, f0) ** 2) ** 3 * swu_u (f1, f0) <> FQ2_zero.
Proof.
  intros K.
  apply (proj1 (proj1 (@optimized_swu_G2_raises_iff GF9.t GF9_field K (f1, f0)))).
  exists (Exception "Hash to Curve - Optimized SWU failure"). reflexivity.
Defined.

Lemma optimized_swu_G2_sign_witness :
  (f1, f0) <> FQ2_zero /\
  optimized_swu_G2 (f1, f0) = Returned ((f2, f2), (f1, f0), (f0, f2)) /\
  sgn0 (f1, f0) = sgn0 ((f1, f0) / (f0, f2)).
Proof.
  split; [discriminate |].
  split; [reflexivity |].
  apply (optimized_swu_G2_sign (f1, f0) (f2, f2) (f1, f0) (f0, f2)
           GF9_A_nonzero GF9_Z_nonzero
           GF9_no_point_of_order_two GF9_sgn0_canonical).
  - discriminate.
  - reflexivity.
Defined.

Lemma iso_map_G2_homogenized_witness :
  let x := (f2, f2) in
  let y := (f1, f0) in
  let z := (f0, f2) in
  let xNum := homogenized_poly x z [(f1, f1); (f0, f2); (f2, f0); (f1, f0)] in
  let xDen := homogenized_poly x z [(f0, f1); (f2, f2); (f1, f0)] in
  let yNum := homogenized_poly x z [(f2, f1); (f1, f0); (f0, f1); (f1, f2)] in
  let yDen := homogenized_poly x z [(f1, f2); (f2, f0); (f0, f2); (f1, f0)] in
  iso_map_G2 x y z = Returned (xNum * (yDen * z), yNum * y * xDen, xDen * (yDen * z)) /\
  xNum * (yDen * z) / (xDen * (yDen * z)) = xNum / xDen /\
  yNum * y * xDen / (xDen * (yDen * z)) = y * yNum / (z * yDen).
Proof.
  intros x y z xNum xDen yNum yDen.
  destruct (iso_map_G2_homogenized x y z _ _ _ _ GF9_coefficient_table)
    as [Hvalue Haffine].
  split; [exact Hvalue |].
  apply Haffine; discriminate.
Defined.

Lemma optimized_swu_G2_zero_witness :
  optimized_swu_G2 (f0, f0) = Returned ((f0, f1), (f1, f0), (f1, f1)) /\
  (f1, f1) <> FQ2_zero /\
  ((f1, f0) / (f1, f1)) ** 2 =
  ((f0, f1) / (f1, f1)) ** 3 + ISO_3_A * ((f0, f1) / (f1, f1)) + ISO_3_B.
Proof.
  split; [reflexivity |].
  apply (proj2 (proj2 optimized_swu_G2_zero)
           GF9_A_nonzero GF9_Z_nonzero GF9_exceptional_case_square
           (f0, f1) (f1, f0) (f1, f1)).
  reflexivity.
Defined.

Lemma optimized_swu_G2_denominator_nonzero_witness :
  optimized_swu_G2 (f1, f0) = Returned ((f2, f2), (f1, f0), (f0, f2)) /\
  (f0, f2) <> FQ2_zero /\
  (((f0, f2) = - (ISO_3_A * swu_s (f1, f0)) /\ swu_s (f1, f0) <> FQ2_zero) \/
   ((f0, f2) = ISO_3_Z * ISO_3_A /\ ISO_3_Z * ISO_3_A <> FQ2_zero)).
Proof.
  split; [reflexivity |].
  apply (optimized_swu_G2_denominator_nonzero (f1, f0) (f2, f2) (f1, f0) (f0, f2)
           GF9_A_nonzero GF9_Z_nonzero).
  reflexivity.
Defined.

Lemma iso_map_G2_degenerate_witness :
  iso_map_G2 (f1, f1) (f2, f1) (f0, f0) = Returned ((f0, f0), (f2, f1), (f0, f0)) /\
  (f0, f0) = FQ2_zero /\ (f0, f0) = FQ2_zero.
Proof.
  split; [reflexivity |].
  apply (proj2 (iso_map_G2_degenerate (f1, f1) (f2, f1)) (f0, f0) (f2, f1) (f0, f0)).
  reflexivity.
Defined.

(** * Instances of the further properties *)

Lemma GF9_eta_table : eta_table.
Proof.
  intros [[] []] H; try discriminate H;
    first [ exists (f1, f0); split; [simpl; tauto | reflexivity]
          | exists (f0, f1); split; [simpl; tauto | reflexivity]
          | exists (f1, f1); split; [simpl; tauto | reflexivity]
          | exists (f1, f2); split; [simpl; tauto | reflexivity] ].
Qed.

Lemma GF9_minus_one_over_Z_not_square : minus_one_over_Z_not_square.
Proof. intros [[] []]; discriminate. Qed.

Lemma GF9_sgn0_odd : sgn0_odd.
Proof. intros [[] []] H; try discriminate. now elim H. Qed.

Lemma GF9_roots_nonempty : POSITIVE_EIGTH_ROOTS_OF_UNITY <> [].
Proof. discriminate. Qed.

Lemma GF9_padded_coefficient_table :
  @coefficient_table GF9.t GF9_padded_constants
    [(f1, f1); (f0, f2); (f2, f0); (f1, f0)]
    [(f0, f1); (f2, f2); (f1, f0); (f0, f0)]
    [(f2, f1); (f1, f0); (f0, f1); (f1, f2)]
    [(f1, f2); (f2, f0); (f0, f2); (f1, f0)].
Proof.
  split; [reflexivity |]. repeat constructor.
Qed.

Example iso_map_G2_long_sequence_raises :
  @iso_map_G2 GF9.t GF9_field GF9_long_sequence_constants (f1, f1) (f2, f1) (f1, f0) =
  Raised (IndexError "list index out of range").
Proof. reflexivity. Qed.

Example iso_map_G2_empty_table_returns :
  @iso_map_G2 GF9.t GF9_field GF9.corrupted_constants (f1, f1) (f2, f1) (f1, f0) =
  Returned ((f0, f0), (f0, f0), (f0, f0)).
Proof. reflexivity. Qed.

Lemma sqrt_division_FQ2_decides_square_witness :
  (f0, f1) <> FQ2_zero /\
  (fst (sqrt_division_FQ2 (f2, f0) (f0, f1)) = true <->
   exists s, s ** 2 = (f2, f0) / (f0, f1)) /\
  ~ (exists s, s ** 2 = (f1, f1) / (f1, f0)).
Proof.
  split; [discriminate |]. split.
  - apply (sqrt_division_FQ2_decides_square (f2, f0) (f0, f1)
             GF9_field_size GF9_roots_of_unity_table).
    discriminate.
  - intros Hsq.
    apply (proj2 (sqrt_division_FQ2_decides_square (f1, f1) (f1, f0)
                    GF9_field_size GF9_roots_of_unity_table
                    ltac:(discriminate))) in Hsq.
    discriminate Hsq.
Defined.

Lemma sqrt_division_FQ2_zero_u_witness :
  POSITIVE_EIGTH_ROOTS_OF_UNITY <> [] /\
  sqrt_division_FQ2 FQ2_zero (f1, f2) = (true, FQ2_zero).
Proof.
  split; [exact GF9_roots_nonempty |].
  apply (sqrt_division_FQ2_zero_u (f1, f2) GF9_roots_nonempty).
Defined.

Lemma optimized_swu_G2_never_raises_witness :
  (exists P, optimized_swu_G2 (f2, f1) = Returned P) /\
  (forall e, optimized_swu_G2 (f2, f1) <> Raised e).
Proof.
  apply (optimized_swu_G2_never_raises (f2, f1) GF9_A_nonzero GF9_Z_nonzero
           GF9_field_size GF9_roots_of_unity_table GF9_eta_table).
Defined.

Lemma swu_second_candidate_relation_witness :
  - (ISO_3_A * (ISO_3_Z * (f1, f0) ** 2 + ISO_3_Z ** 2 * (f1, f0) ** 4)) <> FQ2_zero /\
  isogenous_g (ISO_3_Z * (f1, f0) ** 2
               * (swu_numerator (f1, f0) / swu_denominator (f1, f0))) =
  (ISO_3_Z * (f1, f0) ** 2) ** 3
  * isogenous_g (swu_numerator (f1, f0) / swu_denominator (f1, f0)).
Proof.
  split; [discriminate |].
  apply (swu_second_candidate_relation (f1, f0)). discriminate.
Defined.

Lemma optimized_swu_G2_x_coordinate_witness :
  optimized_swu_G2 (f1, f0) = Returned ((f2, f2), (f1, f0), (f0, f2)) /\
  (f0, f2) <> FQ2_zero /\
  ~ (exists s, s ** 2 = isogenous_g (swu_numerator (f1, f0) / swu_denominator (f1, f0))) /\
  (f2, f2) / (f0, f2) =
  ISO_3_Z * (f1, f0) ** 2 * (swu_numerator (f1, f0) / swu_denominator (f1, f0)).
Proof.
  assert (Hnot : ~ (exists s, s ** 2 =
            isogenous_g (swu_numerator (f1, f0) / swu_denominator (f1, f0)))).
  { intros [[[] []] H]; discriminate H. }
  split; [reflexivity |]. split; [discriminate |]. split; [exact Hnot |].
  apply (proj2 (optimized_swu_G2_x_coordinate (f1, f0) (f2, f2) (f1, f0) (f0, f2)
                  GF9_field_size GF9_roots_of_unity_table eq_refl
                  ltac:(discriminate))).
  exact Hnot.
Defined.

Lemma swu_exceptional_iff_zero_witness :
  optimized_swu_G2 (f2, f1) = Returned ((f1, f2), (f1, f1), (f0, f2)) /\
  (f2, f1) <> FQ2_zero /\
  (f0, f2) =
  - (ISO_3_A * (ISO_3_Z * (f2, f1) ** 2 + ISO_3_Z ** 2 * (f2, f1) ** 4)).
Proof.
  split; [reflexivity |]. split; [discriminate |].
  refine (proj2 (proj2 (swu_exceptional_iff_zero (f2, f1) GF9_A_nonzero GF9_Z_nonzero
                          GF9_minus_one_over_Z_not_square)
                   (f1, f2) (f1, f1) (f0, f2) _) _).
  - reflexivity.
  - discriminate.
Defined.

Lemma optimized_swu_G2_odd_witness :
  (f1, f0) <> FQ2_zero /\
  optimized_swu_G2 (f1, f0) = Returned ((f2, f2), (f1, f0), (f0, f2)) /\
  optimized_swu_G2 (- (f1, f0)) = Returned ((f2, f2), - (f1, f0), (f0, f2)).
Proof.
  split; [discriminate |]. split; [reflexivity |].
  apply (optimized_swu_G2_odd (f1, f0) (f2, f2) (f1, f0) (f0, f2)
           GF9_A_nonzero GF9_Z_nonzero GF9_no_point_of_order_two
           GF9_sgn0_canonical GF9_sgn0_odd).
  - discriminate.
  - reflexivity.
Defined.

Lemma iso_map_G2_negated_y_witness :
  iso_map_G2 (f2, f2) (f1, f0) (f0, f2) = Returned ((f2, f2), (f2, f2), (f0, f1)) /\
  iso_map_G2 (f2, f2) (- (f1, f0)) (f0, f2) = Returned ((f2, f2), - (f2, f2), (f0, f1)).
Proof.
  split; [reflexivity |].
  refine (proj1 (iso_map_G2_negated_y (f2, f2) (f1, f0) (f0, f2)
                   (f2, f2) (f2, f2) (f0, f1) _)).
  reflexivity.
Defined.

Lemma iso_map_G2_projective_witness :
  let K := GF9_padded_constants in
  exists X Y Zo,
    iso_map_G2 (f2, f2) (f1, f0) (f0, f2) = Returned (X, Y, Zo) /\
    iso_map_G2 ((f1, f1) * (f2, f2)) ((f1, f1) * (f1, f0)) ((f1, f1) * (f0, f2)) =
    Returned ((f1, f1) ** 7 * X, (f1, f1) ** 7 * Y, (f1, f1) ** 7 * Zo).
Proof.
  intros K.
  apply (@iso_map_G2_projective GF9.t GF9_field K (f1, f1) (f2, f2) (f1, f0) (f0, f2)
           _ _ _ _ GF9_padded_coefficient_table eq_refl eq_refl eq_refl).
Defined.

Lemma swu_then_iso_map_odd_witness :
  (f1, f0) <> FQ2_zero /\
  optimized_swu_G2 (f1, f0) = Returned ((f2, f2), (f1, f0), (f0, f2)) /\
  iso_map_G2 (f2, f2) (f1, f0) (f0, f2) = Returned ((f2, f2), (f2, f2), (f0, f1)) /\
  (P <- optimized_swu_G2 (- (f1, f0)) ;;
   let '(X1, Y1, Z1) := P in iso_map_G2 X1 Y1 Z1)
  = Returned ((f2, f2), - (f2, f2), (f0, f1)).
Proof.
  split; [discriminate |]. split; [reflexivity |]. split; [reflexivity |].
  refine (swu_then_iso_map_odd (f1, f0) (f2, f2) (f1, f0) (f0, f2)
            (f2, f2) (f2, f2) (f0, f1)
            GF9_A_nonzero GF9_Z_nonzero GF9_no_point_of_order_two
            GF9_sgn0_canonical GF9_sgn0_odd _ _ _).
  - discriminate.
  - reflexivity.
  - reflexivity.
Defined.

Lemma sqrt_division_FQ2_zero_v_witness :
  sqrt_division_FQ2 (f1, f0) FQ2_zero = (false, FQ2_zero) /\
  snd (sqrt_division_FQ2 (f1, f0) FQ2_zero) = FQ2_zero /\
  fst (sqrt_division_FQ2 FQ2_zero FQ2_zero) = true.
Proof.
  split; [reflexivity |]. split.
  - exact (proj1 (sqrt_division_FQ2_zero_v (f1, f0))).
  - apply (proj2 (sqrt_division_FQ2_zero_v FQ2_zero)).
    split; [reflexivity | exact GF9_roots_nonempty].
Defined.

Lemma optimized_swu_G2_negated_input_witness :
  optimized_swu_G2 (f0, f1) = Returned ((f1, f0), (f0, f1), (f2, f1)) /\
  exists Y',
    optimized_swu_G2 (- (f0, f1)) = Returned ((f1, f0), Y', (f2, f1)) /\
    (Y' = (f0, f1) \/ Y' = - (f0, f1)).
Proof.
  split; [reflexivity |].
  refine (proj2 (optimized_swu_G2_negated_input (f0, f1))
            (f1, f0) (f0, f1) (f2, f1) _).
  reflexivity.
Defined.

Lemma iso_map_G2_index_errors_witness :
  (exists P, iso_map_G2 (f2, f2) (f1, f0) (f0, f2) = Returned P) /\
  ~ @table_in_bounds GF9.t GF9_long_sequence_constants /\
  (exists msg,
     @iso_map_G2 GF9.t GF9_field GF9_long_sequence_constants
       (f2, f2) (f1, f0) (f0, f2) = Raised (IndexError msg)).
Proof.
  assert (Hbad : ~ @table_in_bounds GF9.t GF9_long_sequence_constants).
  { intros [_ H]. inversion_clear H as [| ? ? Hk _]. simpl in Hk. lia. }
  split; [| split; [exact Hbad |]].
  - apply (proj1 (iso_map_G2_index_errors (f2, f2) (f1, f0) (f0, f2))).
    split; [simpl; lia | repeat constructor].
  - exact (proj1 (proj2 (@iso_map_G2_index_errors GF9.t GF9_field
                           GF9_long_sequence_constants (f2, f2) (f1, f0) (f0, f2)))
             Hbad).
Defined.
